(** * AirSight: region selection store, map viewport controller,
      location search and geolocation fallback

    A shallow embedding of the client hooks and components that decide which
    region is selected and where the map looks:

    - [RegionStore]    : the hook [useDashboardRegions]
    - [AqiMap]         : the component [AqiMap] with its two helper
                         components [MapCenterController] and
                         [MapEventHandler]
    - [LocationPanel]  : the search box of [LocationPanel]
                         ([handleSearchChange], [performSearch])
    - [CurrentLocation]: the hook [useCurrentLocation] of the dashboard page
    - [PanelView]      : what [LocationPanel] shows and does with the store
                         ([isActive], [handleLocationSelect], the cleanup)
    - [Dashboard]      : the page ([regionFromCoordinates], its effect,
                         [focus], [handleUseCurrent])

    JavaScript values are modelled as the code has them: a [number] is a
    binary64 float, a [string] is held as the UTF-8 bytes of its text and
    its [length] counts UTF-16 code units, a [string | null] is an
    [option string] whose truthiness test is written out ([null] and the
    empty string are both falsy), an object-or-null is an [option]. React
    state cells are fields of a record;
    an event handler is a function on that record, and an effect is a
    function that runs after a render whose dependency list changed. *)

From Stdlib Require Import Floats.
From stdpp Require Import base strings option list.

Set Warnings "-inexact-float".
#[local] Open Scope string_scope.
#[local] Open Scope nat_scope.

(** ** JavaScript helpers *)

(** Truthiness of a [string | null]: [null] and [""] are falsy. *)
Definition truthy (v : option string) : bool :=
  match v with
  | None => false
  | Some s => negb (String.eqb s "")
  end.

(** [a === b] for a [string | undefined] against a [string | null]. *)
Definition strict_eq (a b : option string) : bool :=
  match a, b with
  | Some x, Some y => String.eqb x y
  | _, _ => false
  end.

(** [s.length]: JavaScript counts the UTF-16 code units of a string. A
    string is held here as the UTF-8 bytes of its text. A byte below 0x80
    and the lead byte of a two- or three-byte sequence (0xC0 to 0xEF) begin
    a character of one unit; the lead byte of a four-byte sequence (0xF0 and
    above) begins a character of two units, a surrogate pair; a continuation
    byte (0x80 to 0xBF) begins none. *)
Definition utf16_units (b : Ascii.ascii) : nat :=
  let n := Ascii.nat_of_ascii b in
  if n <? 128 then 1
  else if n <? 192 then 0
  else if n <? 240 then 1
  else 2.

Fixpoint jsLength (s : string) : nat :=
  match s with
  | EmptyString => 0
  | String b rest => utf16_units b + jsLength rest
  end.

(** ** The saved-region store: [useDashboardRegions] *)

Module RegionStore.

Record DashboardRegion := {
  id : string;
  name : string;
  label : string;
  lat : float;
  lon : float;
  country : option string;
  admin : option string;
}.

Definition MAX_REGIONS : nat := 6.

(** Default location: New York City *)
Definition DEFAULT_REGION : DashboardRegion := {|
  id := "default-nyc";
  name := "New York City";
  label := "New York City, NY";
  lat := 40.7128%float;
  lon := (-74.0060)%float;
  country := Some "US";
  admin := Some "NY";
|}.

(** Modelled from the spec: the hook [useLocalStorage] is not among the
    sources; the spec describes it as durable key-value storage with
    read/write/subscribe. Its pair [value, setValue] is taken as a state
    cell whose setter accepts a value or an updater of the previous value,
    so [regions] and [activeId] sit next to the [useState] cell [temporary]. *)
Record Store := {
  regions : list DashboardRegion;
  activeId : option string;
  temporary : option DashboardRegion;
}.

Definition setRegions (v : list DashboardRegion) (s : Store) : Store :=
  {| regions := v; activeId := activeId s; temporary := temporary s |}.
Definition setActiveId (v : option string) (s : Store) : Store :=
  {| regions := regions s; activeId := v; temporary := temporary s |}.
Definition setTemporary (v : option DashboardRegion) (s : Store) : Store :=
  {| regions := regions s; activeId := activeId s; temporary := v |}.

(** What the persisted cells hold when storage is empty, and the initial
    [useState(null)]. *)
Definition empty_storage : Store :=
  {| regions := []; activeId := None; temporary := None |}.

(** [regions.find((region) => region.id === key)] *)
Definition find_region (key : string) (l : list DashboardRegion)
    : option DashboardRegion :=
  List.find (λ region, String.eqb (id region) key) l.

(** The bootstrap effect (first [useEffect] of the hook). *)
Definition bootstrap (s : Store) : Store :=
  if bool_decide (is_Some (temporary s)) || truthy (activeId s) then s
  else match regions s with
       | first :: _ => setActiveId (Some (id first)) s
       | [] => setRegions [DEFAULT_REGION]
                 (setActiveId (Some (id DEFAULT_REGION)) s)
       end.

(** [activeRegion]: the derived read the spec calls [currentSelection()]. *)
Definition activeRegion (s : Store) : option DashboardRegion :=
  match temporary s with
  | Some t => Some t
  | None =>
      match activeId s with
      | Some a => if truthy (Some a) then find_region a (regions s) else None
      | None => None
      end
  end.

(** [isTemporary = !!temporary && (!activeId || temporary.id !== activeId)] *)
Definition isTemporary (s : Store) : bool :=
  match temporary s with
  | None => false
  | Some t =>
      negb (truthy (activeId s)) || negb (strict_eq (Some (id t)) (activeId s))
  end.

(** The updater that [upsertRegion] hands to [setRegions]. *)
Definition upsert (region : DashboardRegion) (prev : list DashboardRegion)
    : list DashboardRegion :=
  let filtered := filter (λ item, id item ≠ id region) prev in
  take MAX_REGIONS (region :: filtered).

Definition upsertRegion (region : DashboardRegion) (s : Store) : Store :=
  setRegions (upsert region (regions s)) s.

(** [activateRegion(region, { persist })]; [persist] stands for
    [options?.persist !== false]. *)
Definition activateRegion (region : DashboardRegion) (persist : bool)
    (s : Store) : Store :=
  if persist then
    setActiveId (Some (id region)) (upsertRegion region (setTemporary None s))
  else
    let s1 := setTemporary (Some region) s in
    if truthy (activeId s) then setActiveId None s1 else s1.

Definition selectExisting (key : string) (s : Store) : Store :=
  match find_region key (regions s) with
  | None => s
  | Some _ => setActiveId (Some key) (setTemporary None s)
  end.

Definition removeRegion (key : string) (s : Store) : Store :=
  let next := filter (λ item, id item ≠ key) (regions s) in
  let s1 :=
    if strict_eq (activeId s) (Some key) then
      setActiveId (match next with
                   | fallback :: _ => Some (id fallback)
                   | [] => None
                   end) s
    else s in
  let s2 := setRegions next s1 in
  if strict_eq (id <$> temporary s) (Some key) then setTemporary None s2
  else s2.

Definition persistTemporary (s : Store) : Store :=
  match temporary s with
  | None => s
  | Some t => setActiveId (Some (id t)) (upsertRegion t (setTemporary None s))
  end.

Definition clearTemporary (s : Store) : Store :=
  let s1 := setTemporary None s in
  match regions s with
  | first :: _ =>
      if truthy (activeId s) then s1 else setActiveId (Some (id first)) s1
  | [] => s1
  end.

(** The saved list after a sequence of [upsertRegion] calls, oldest call
    first. *)
Definition upserts (calls : list DashboardRegion) (l : list DashboardRegion)
    : list DashboardRegion :=
  foldl (λ acc region, upsert region acc) l calls.

Definition ids (l : list DashboardRegion) : list string := id <$> l.

(** The invariant of the saved list: at most [MAX_REGIONS] entries, with
    pairwise distinct ids. *)
Definition saved_ok (l : list DashboardRegion) : Prop :=
  length l ≤ MAX_REGIONS ∧ NoDup (ids l).

(** The operations the hook returns, and the bootstrap effect that may run
    after each of them. *)
Inductive Op :=
| Activate (region : DashboardRegion) (persist : bool)
| SelectExisting (key : string)
| Remove (key : string)
| PersistTemporary
| ClearTemporary
| Bootstrap.

Definition apply_op (s : Store) (o : Op) : Store :=
  match o with
  | Activate region persist => activateRegion region persist s
  | SelectExisting key => selectExisting key s
  | Remove key => removeRegion key s
  | PersistTemporary => persistTemporary s
  | ClearTemporary => clearTemporary s
  | Bootstrap => bootstrap s
  end.

(** Regions to run the store on: [place k] is a region whose id is [k]. *)
Definition place (k : string) : DashboardRegion :=
  {| id := k; name := k; label := k; lat := 0%float; lon := 0%float;
     country := None; admin := None |}.

(** Two different regions that carry the same id. *)
Definition twin_a : DashboardRegion :=
  {| id := "x"; name := "first"; label := "first"; lat := 1%float;
     lon := 1%float; country := None; admin := None |}.
Definition twin_b : DashboardRegion :=
  {| id := "x"; name := "second"; label := "second"; lat := 2%float;
     lon := 2%float; country := None; admin := None |}.

(** Seven saved regions with distinct ids: one more than the cap. *)
Definition seven : list DashboardRegion :=
  place <$> ["a"; "b"; "c"; "d"; "e"; "f"; "g"].

End RegionStore.

(** ** The map viewport: [AqiMap], [MapCenterController], [MapEventHandler] *)

Module AqiMap.

(** The prop [center: { lat: number; lon: number } | null]. *)
Record LatLon := { lat : float; lon : float }.

(** The state cell [mapCenter: [number, number]]. *)
Definition Tuple : Type := float * float.

(** What one committed render of [AqiMap] holds: the [center] prop and the
    three [useState] cells. Dependency lists are compared with [Object.is]:
    every render of the dashboard page builds a fresh [center] object and every
    [setMapCenter] stores a fresh array, so the two carry a generation number
    that stands for their identity. *)
Record Cells := {
  center : option LatLon;
  centerGen : nat;
  mapCenter : Tuple;
  mapCenterGen : nat;
  shouldUpdateCenter : bool;
  userHasPanned : bool;
}.

(** What the component does to the map surface: the [MapContainer] element
    creates a map at its [center] prop (read once, when the map is created),
    and [MapCenterController] calls [map.setView]. *)
Inductive MapCall :=
| MapCreated (at_center : Tuple)
| SetView (to_center : Tuple).

Definition callCenter (m : MapCall) : Tuple :=
  match m with
  | MapCreated v => v
  | SetView v => v
  end.

(** The component together with the map surface it drives: [mapCalls] lists
    the calls made so far, latest first, and [listening] says whether
    [handleMapMove] is subscribed to the [movestart] of the map, which
    [MapEventHandler] sees to ([map.on] in its effect, [map.off] in the
    cleanup of that effect). *)
Record World := {
  cells : Cells;
  mapCalls : list MapCall;
  listening : bool;
}.

Inductive FollowMode := FOLLOWING | PANNED.

Definition followMode (w : World) : FollowMode :=
  if userHasPanned (cells w) then PANNED else FOLLOWING.

(** The viewport centre the component last gave the map surface. *)
Definition viewport (w : World) : option Tuple :=
  callCenter <$> head (mapCalls w).

Definition setCenterProp (v : option LatLon) (c : Cells) : Cells :=
  {| center := v; centerGen := S (centerGen c);
     mapCenter := mapCenter c; mapCenterGen := mapCenterGen c;
     shouldUpdateCenter := shouldUpdateCenter c;
     userHasPanned := userHasPanned c |}.
Definition setMapCenter (v : Tuple) (c : Cells) : Cells :=
  {| center := center c; centerGen := centerGen c;
     mapCenter := v; mapCenterGen := S (mapCenterGen c);
     shouldUpdateCenter := shouldUpdateCenter c;
     userHasPanned := userHasPanned c |}.
Definition setShouldUpdateCenter (v : bool) (c : Cells) : Cells :=
  {| center := center c; centerGen := centerGen c;
     mapCenter := mapCenter c; mapCenterGen := mapCenterGen c;
     shouldUpdateCenter := v;
     userHasPanned := userHasPanned c |}.
Definition setUserHasPanned (v : bool) (c : Cells) : Cells :=
  {| center := center c; centerGen := centerGen c;
     mapCenter := mapCenter c; mapCenterGen := mapCenterGen c;
     shouldUpdateCenter := shouldUpdateCenter c;
     userHasPanned := v |}.

(** The effect of [AqiMap] (dependencies [center, userHasPanned]):
    update map center only when explicitly requested or on first load. The
    effect reads the values of the render [r] it belongs to and writes the
    cells [c]. *)
Definition centerEffect (r c : Cells) : Cells :=
  match center r with
  | Some p =>
      if negb (userHasPanned r)
      then setShouldUpdateCenter true (setMapCenter (lat p, lon p) c)
      else setShouldUpdateCenter false c
  | None => setShouldUpdateCenter false c
  end.

(** The effect of [MapCenterController] (dependencies
    [map, center, shouldUpdate], fed with [mapCenter] and
    [shouldUpdateCenter]): [map.setView(center, map.getZoom())]. *)
Definition controllerEffect (c : Cells) (calls : list MapCall)
    : list MapCall :=
  if shouldUpdateCenter c then SetView (mapCenter c) :: calls else calls.

Definition handleRecenterMap (c : Cells) : Cells :=
  match center c with
  | Some p =>
      setUserHasPanned false
        (setShouldUpdateCenter true (setMapCenter (lat p, lon p) c))
  | None => c
  end.

Definition handleMapMove (c : Cells) : Cells :=
  setShouldUpdateCenter false (setUserHasPanned true c).

(** Whether the dependency lists of the two effects differ between the
    previous committed render and the current one. *)
Definition centerDepsChanged (prev cur : Cells) : bool :=
  negb (Nat.eqb (centerGen prev) (centerGen cur))
  || negb (Bool.eqb (userHasPanned prev) (userHasPanned cur)).

Definition controllerDepsChanged (prev cur : Cells) : bool :=
  negb (Nat.eqb (mapCenterGen prev) (mapCenterGen cur))
  || negb (Bool.eqb (shouldUpdateCenter prev) (shouldUpdateCenter cur)).

(** [AqiMap] returns a skeleton while [center] is null, so the map and the
    two helper components are mounted only while it is not. *)
Definition mapMounted (c : Cells) : bool := bool_decide (is_Some (center c)).

(** Whether this commit creates the map. *)
Definition mapCreated (prev cur : Cells) : bool :=
  mapMounted cur && negb (mapMounted prev).

(** Whether the effect of [MapCenterController] runs in this commit: on its
    mount, or if its dependencies changed. *)
Definition controllerRuns (prev cur : Cells) : bool :=
  mapMounted cur && (mapCreated prev cur || controllerDepsChanged prev cur).

(** Whether [handleMapMove] is subscribed at the moment the effect of
    [MapCenterController] runs. A commit runs its cleanups before its
    effects. The effect of [MapEventHandler] depends on [onMoveStart], and
    [handleMapMove] is a new function in every render of [AqiMap]: where the
    helper was mounted, its cleanup ([map.off]) has run by then. A map
    created by this commit is a new one, to which nothing is subscribed.
    The effect of [MapEventHandler] subscribes again only after the one of
    [MapCenterController], which stands before it among the children. *)
Definition listeningDuringEffects (prev cur : Cells) (listening : bool)
    : bool :=
  let afterCleanups := if mapMounted prev then false else listening in
  if mapCreated prev cur then false else afterCleanups.

(** Whether [handleMapMove] hears the [movestart] that the map raises for
    the [setView] of this commit: the map raises it inside the call, for
    whoever is subscribed then. *)
Definition ownMoveHeard (prev cur : Cells) (listening : bool) : bool :=
  controllerRuns prev cur && shouldUpdateCenter cur
  && listeningDuringEffects prev cur listening.

(** One commit: the render [cur] follows the render [prev]. A map that was
    not there before is created at [mapCenter]; the cleanup of
    [MapEventHandler] runs; then the effects run, children first:
    [MapCenterController] (on its mount, or if its dependencies changed),
    [MapEventHandler] (which subscribes [handleMapMove]), then [AqiMap] (if
    its dependencies changed). The result is the state the effects leave
    (the input of the next render), the log of map calls, and whether
    [handleMapMove] is subscribed. *)
Definition commit (prev cur : Cells) (calls : list MapCall) (listening : bool)
    : Cells * list MapCall * bool :=
  let calls0 :=
    if mapCreated prev cur then MapCreated (mapCenter cur) :: calls
    else calls in
  let calls1 :=
    if controllerRuns prev cur then controllerEffect cur calls0 else calls0 in
  let moved :=
    if ownMoveHeard prev cur listening then handleMapMove cur else cur in
  let next :=
    if centerDepsChanged prev cur then centerEffect cur moved else moved in
  (next, calls1, mapMounted cur).

(** An event handler changed the cells from [prev] to [cur]: commit that
    render, then the render caused by what the effects of the first one
    set. *)
Definition rerender (prev cur : Cells) (calls : list MapCall)
    (listening : bool) : World :=
  let '(next, calls1, listening1) := commit prev cur calls listening in
  let '(final, calls2, listening2) := commit cur next calls1 listening1 in
  {| cells := final; mapCalls := calls2; listening := listening2 |}.

(** The events of the component: the page passes a new [center] (the
    selection changed); the user moves the map and the map raises
    [movestart]; the user presses the Recenter button. The [movestart]
    the map raises for a [setView] of the controller is not an event from
    outside: it is part of [commit]. *)
Inductive Event :=
| SelectionChange (c : option LatLon)
| MoveStart
| Recenter.

Definition handler (e : Event) (c : Cells) : Cells :=
  match e with
  | SelectionChange v => setCenterProp v c
  | MoveStart => handleMapMove c
  | Recenter => handleRecenterMap c
  end.

(** A [movestart] reaches [handleMapMove] only while it is subscribed. *)
Definition step (w : World) (e : Event) : World :=
  match e with
  | MoveStart =>
      if listening w
      then rerender (cells w) (handleMapMove (cells w)) (mapCalls w)
             (listening w)
      else w
  | _ => rerender (cells w) (handler e (cells w)) (mapCalls w) (listening w)
  end.

Definition run (w : World) (es : list Event) : World := foldl step w es.

(** The first render: [useState] initial values, then every effect runs.
    The map is new when [MapCenterController] runs its effect, so nobody
    hears the [movestart] of that [setView]; then [MapEventHandler]
    subscribes. *)
Definition initialCells (c : option LatLon) : Cells :=
  {| center := c; centerGen := 0;
     mapCenter := (40.7128%float, (-74.0060)%float); mapCenterGen := 0;
     shouldUpdateCenter := true; userHasPanned := false |}.

Definition mount (c : option LatLon) : World :=
  let first := initialCells c in
  let calls0 :=
    if mapMounted first
    then controllerEffect first [MapCreated (mapCenter first)]
    else [] in
  let '(final, calls1, listening1) :=
    commit first (centerEffect first first) calls0 (mapMounted first) in
  {| cells := final; mapCalls := calls1; listening := listening1 |}.

(** The coordinates of a selection as the cell [mapCenter] stores them. *)
Definition coordsOf (p : LatLon) : Tuple := (lat p, lon p).

(** Places to move the map between. *)
Definition boston : LatLon := {| lat := 42.3601%float; lon := (-71.0589)%float |}.
Definition chicago : LatLon := {| lat := 41.8781%float; lon := (-87.6298)%float |}.
Definition denver : LatLon := {| lat := 39.7392%float; lon := (-104.9903)%float |}.

(** Whether an event is a [movestart] of the map. *)
Definition isMoveStart (e : Event) : bool :=
  match e with
  | MoveStart => true
  | _ => false
  end.

End AqiMap.

(** ** The search box: [LocationPanel] *)

Module LocationPanel.

(** A candidate of the search endpoint, with the fields the panel reads. *)
Record LocationSearchResult := {
  name : string;
  label : string;
  state : option string;
  lat : float;
  lon : float;
}.

(** The [useState] cells of the search box and the timer handle kept in
    [searchTimeoutRef] ([None] is [undefined], before the first keystroke). *)
Record Panel := {
  searchQuery : string;
  searchResults : list LocationSearchResult;
  isSearching : bool;
  showResults : bool;
  searchTimeoutRef : option nat;
}.

(** A timer of the runtime that has been set and not yet fired or cleared:
    its handle, the time it is due (ms) and the [value] its callback closed
    over. *)
Record Timer := {
  handle : nat;
  due : nat;
  arg : string;
}.

(** The panel inside its runtime: the clock (ms), the pending timers, the
    next free timer handle, and the requests sent to
    [/api/location-search] so far, latest first, each with the time it was
    issued and its query. *)
Record World := {
  panel : Panel;
  now : nat;
  timers : list Timer;
  nextHandle : nat;
  requests : list (nat * string);
}.

Definition DEBOUNCE_MS : nat := 300.

Definition initialPanel : Panel :=
  {| searchQuery := ""; searchResults := []; isSearching := false;
     showResults := false; searchTimeoutRef := None |}.

Definition initialWorld : World :=
  {| panel := initialPanel; now := 0; timers := []; nextHandle := 1;
     requests := [] |}.

Definition setPanel (p : Panel) (w : World) : World :=
  {| panel := p; now := now w; timers := timers w;
     nextHandle := nextHandle w; requests := requests w |}.

(** What [fetch] and [response.json()] can come back with. *)
Inductive FetchOutcome :=
| Ok200 (results : list LocationSearchResult)
| NotOk
| Failed.

(** [performSearch] up to its [await]: if [query.length < 2] it clears the
    results and returns; otherwise it raises [isSearching] and sends the
    request. The result says whether a request is now in flight. *)
Definition performSearch_start (query : string) (w : World) : World * bool :=
  let p := panel w in
  if (jsLength query <? 2)%nat then
    (setPanel {| searchQuery := searchQuery p; searchResults := [];
                 isSearching := isSearching p; showResults := false;
                 searchTimeoutRef := searchTimeoutRef p |} w, false)
  else
    ({| panel := {| searchQuery := searchQuery p;
                    searchResults := searchResults p;
                    isSearching := true; showResults := showResults p;
                    searchTimeoutRef := searchTimeoutRef p |};
        now := now w; timers := timers w; nextHandle := nextHandle w;
        requests := (now w, query) :: requests w |}, true).

(** [performSearch] from its [await] on, once the request has an outcome:
    the [try] body, the [catch] body, the [finally] body. *)
Definition performSearch_resume (o : FetchOutcome) (p : Panel) : Panel :=
  let '(results, shown) :=
    match o with
    | Ok200 results => (results, (0 <? length results)%nat)
    | NotOk | Failed => ([], false)
    end in
  {| searchQuery := searchQuery p; searchResults := results;
     isSearching := false; showResults := shown;
     searchTimeoutRef := searchTimeoutRef p |}.

(** [clearTimeout(h)]: forget the pending timer with that handle, if any. *)
Definition clearTimeout (h : nat) (ts : list Timer) : list Timer :=
  filter (λ t, handle t ≠ h) ts.

(** [handleSearchChange(value)], run at the current time of the runtime.
    [if (searchTimeoutRef.current)] tests the handle for truthiness: the
    runtime hands out handles from 1 on, and [0] would be falsy. *)
Definition handleSearchChange (value : string) (w : World) : World :=
  let p := panel w in
  let ts :=
    match searchTimeoutRef p with
    | Some h => if Nat.eqb h 0 then timers w else clearTimeout h (timers w)
    | None => timers w
    end in
  let h := nextHandle w in
  {| panel := {| searchQuery := value; searchResults := searchResults p;
                 isSearching := isSearching p; showResults := showResults p;
                 searchTimeoutRef := Some h |};
     now := now w;
     timers := ts ++ [{| handle := h; due := now w + DEBOUNCE_MS;
                         arg := value |}];
     nextHandle := S h;
     requests := requests w |}.

(** The callback of one timer runs at the time the timer is due. *)
Definition fire (t : Timer) (w : World) : World :=
  let w1 := {| panel := panel w; now := Nat.max (now w) (due t);
               timers := clearTimeout (handle t) (timers w);
               nextHandle := nextHandle w; requests := requests w |} in
  fst (performSearch_start (arg t) w1).

(** Let the clock reach [t]: the pending timers due before [t] fire, in the
    order they were set (every timer has the same delay). A timer due at
    the very instant [t] is still pending when the event of time [t] is
    handled. No callback sets a timer, so one pass over the pending
    timers is all there is to run. *)
Definition advance (t : nat) (w : World) : World :=
  let w1 := foldl (λ acc tm, if (due tm <? t)%nat then fire tm acc else acc)
                  w (timers w) in
  {| panel := panel w1; now := Nat.max (now w1) t; timers := timers w1;
     nextHandle := nextHandle w1; requests := requests w1 |}.

(** Let every pending timer fire. *)
Definition quiesce (w : World) : World :=
  foldl (λ acc tm, fire tm acc) w (timers w).

(** What happens to the panel: the user changes the input at a time, or
    the request that was sent for query [q] comes back. *)
Inductive Event :=
| Change (t : nat) (value : string)
| Respond (t : nat) (q : string) (o : FetchOutcome).

Definition step (w : World) (e : Event) : World :=
  match e with
  | Change t value => handleSearchChange value (advance t w)
  | Respond t _ o =>
      let w1 := advance t w in
      setPanel (performSearch_resume o (panel w1)) w1
  end.

Definition run (w : World) (es : list Event) : World := foldl step w es.

(** The query of the request issued last, if any. *)
Definition latestIssued (w : World) : option string :=
  snd <$> head (requests w).

(** What the debounce keeps true: the runtime holds at most one pending
    timer of the panel, and [searchTimeoutRef] holds its handle. *)
Definition one_pending (w : World) : Prop :=
  0 < nextHandle w
  ∧ (timers w = []
     ∨ ∃ tm, timers w = [tm]
             ∧ searchTimeoutRef (panel w) = Some (handle tm)
             ∧ 0 < handle tm).

(** Two candidates the endpoint may answer with. *)
Definition abilene : LocationSearchResult :=
  {| name := "Abilene"; label := "Abilene, TX"; state := Some "TX";
     lat := 32.4487%float; lon := (-99.7331)%float |}.
Definition abcoude : LocationSearchResult :=
  {| name := "Abcoude"; label := "Abcoude"; state := None;
     lat := 52.2725%float; lon := 4.9697%float |}.

(** What a response puts on display. *)
Definition displayed (o : FetchOutcome) : list LocationSearchResult :=
  match o with
  | Ok200 results => results
  | NotOk | Failed => []
  end.

End LocationPanel.

(** ** Device geolocation: [useCurrentLocation] *)

Module CurrentLocation.

Record LatLon := { lat : float; lon : float }.

Definition NYC_COORDINATES : LatLon :=
  {| lat := 40.7128%float; lon := (-74.006)%float |}.

(** The two [useState] cells of the hook. *)
Record Hook := {
  coords : option LatLon;
  locating : bool;
}.

Definition initialHook : Hook := {| coords := None; locating := false |}.

(** What the device does with a request: there is no [geolocation] in
    [navigator]; or [getCurrentPosition] calls the success callback with a
    position, or the error callback (denied, unavailable, or the 8 s
    timeout). *)
Inductive Device :=
| NoGeolocation
| Position (latitude longitude : float)
| PositionError.

(** How the promise returned by [request] ends. *)
Inductive Settled :=
| Fulfilled (value : option LatLon)
| Rejected.

(** The synchronous part of [request]: the state it leaves, and the
    promise's value when it is resolved on the spot. *)
Definition request_start (d : Device) (h : Hook) : Hook * option Settled :=
  match d with
  | NoGeolocation =>
      ({| coords := Some NYC_COORDINATES; locating := false |},
       Some (Fulfilled (Some NYC_COORDINATES)))
  | _ => ({| coords := coords h; locating := true |}, None)
  end.

(** The callback the device calls later. *)
Definition request_callback (d : Device) (h : Hook) : Hook * Settled :=
  match d with
  | Position latitude longitude =>
      let next := {| lat := latitude; lon := longitude |} in
      ({| coords := Some next; locating := false |}, Fulfilled (Some next))
  | _ =>
      ({| coords := Some NYC_COORDINATES; locating := false |},
       Fulfilled (Some NYC_COORDINATES))
  end.

(** A request from its call to the settling of its promise. *)
Definition request (d : Device) (h : Hook) : Hook * Settled :=
  match request_start d h with
  | (h1, Some r) => (h1, r)
  | (h1, None) => request_callback d h1
  end.

(** Where a request leaves the hook when it falls back. *)
Definition fallen_back : Hook :=
  {| coords := Some NYC_COORDINATES; locating := false |}.

End CurrentLocation.

(** ** What the panel shows and does with the store: [LocationPanel] *)

Module PanelView.

(** [isActive] of a saved-region badge:
    [activeRegion && region.id === activeRegion.id && !isTemporary]. *)
Definition isActive (s : RegionStore.Store)
    (region : RegionStore.DashboardRegion) : bool :=
  match RegionStore.activeRegion s with
  | Some a =>
      String.eqb (RegionStore.id region) (RegionStore.id a)
      && negb (RegionStore.isTemporary s)
  | None => false
  end.

(** The results dropdown is rendered under
    [showResults && searchResults.length > 0]. *)
Definition dropdownShown (p : LocationPanel.Panel) : bool :=
  LocationPanel.showResults p
  && (0 <? length (LocationPanel.searchResults p)).

(** The cleanup of the last effect of the panel, run when it unmounts:
    the timer kept in [searchTimeoutRef] is cleared. *)
Definition unmount (w : LocationPanel.World) : LocationPanel.World :=
  match LocationPanel.searchTimeoutRef (LocationPanel.panel w) with
  | Some h =>
      if Nat.eqb h 0 then w
      else {| LocationPanel.panel := LocationPanel.panel w;
              LocationPanel.now := LocationPanel.now w;
              LocationPanel.timers :=
                LocationPanel.clearTimeout h (LocationPanel.timers w);
              LocationPanel.nextHandle := LocationPanel.nextHandle w;
              LocationPanel.requests := LocationPanel.requests w |}
  | None => w
  end.

Section Select.

(** What JavaScript computes for the id of a picked result:
    [name.toLowerCase().replace(/\s+/g, '-')], and [Date.now()] as the
    template literal prints it. *)
Variable slug : string → string.
Variable stamp : string.

(** The region [handleLocationSelect] builds from a search result. *)
Definition regionOfResult (location : LocationPanel.LocationSearchResult)
    : RegionStore.DashboardRegion :=
  {| RegionStore.id :=
       "search-" +:+ slug (LocationPanel.name location) +:+ "-" +:+ stamp;
     RegionStore.name := LocationPanel.name location;
     RegionStore.label := LocationPanel.label location;
     RegionStore.lat := LocationPanel.lat location;
     RegionStore.lon := LocationPanel.lon location;
     RegionStore.country := None;
     RegionStore.admin := LocationPanel.state location |}.

(** [handleLocationSelect]: the region is handed to [onRegionSelect] with
    [persist: false] (the page passes [activateRegion]), and the search
    box is emptied. The timer of a pending search is not touched. *)
Definition handleLocationSelect
    (location : LocationPanel.LocationSearchResult)
    (w : LocationPanel.World) (s : RegionStore.Store)
    : LocationPanel.World * RegionStore.Store :=
  let p := LocationPanel.panel w in
  (LocationPanel.setPanel
     {| LocationPanel.searchQuery := "";
        LocationPanel.searchResults := [];
        LocationPanel.isSearching := LocationPanel.isSearching p;
        LocationPanel.showResults := false;
        LocationPanel.searchTimeoutRef := LocationPanel.searchTimeoutRef p |}
     w,
   RegionStore.activateRegion (regionOfResult location) false s).

End Select.

End PanelView.

(** ** The dashboard page: [Dashboard] *)

Module Dashboard.

Section Page.

(** [Number.prototype.toFixed], as JavaScript computes it. *)
Variable toFixed : float → nat → string.

Definition formatCoordinate (value : float) : string := toFixed value 2.

(** [regionFromCoordinates(lat, lon)] with its default label. *)
Definition regionFromCoordinates (lat lon : float)
    : RegionStore.DashboardRegion :=
  {| RegionStore.id := "geo:" +:+ toFixed lat 3 +:+ "," +:+ toFixed lon 3;
     RegionStore.name := "Current location";
     RegionStore.label :=
       "Current location (" +:+ formatCoordinate lat +:+ ", "
       +:+ formatCoordinate lon +:+ ")";
     RegionStore.lat := lat;
     RegionStore.lon := lon;
     RegionStore.country := None;
     RegionStore.admin := None |}.

(** The two hooks the page holds. *)
Record Page := {
  location : CurrentLocation.Hook;
  store : RegionStore.Store;
}.

(** The effect of the page (dependencies
    [currentCoords, activeRegion, activateRegion]): coordinates without a
    selection become a temporary selection. *)
Definition locationEffect (pg : Page) : Page :=
  match CurrentLocation.coords (location pg),
        RegionStore.activeRegion (store pg) with
  | Some c, None =>
      {| location := location pg;
         store :=
           RegionStore.activateRegion
             (regionFromCoordinates (CurrentLocation.lat c)
                (CurrentLocation.lon c))
             false (store pg) |}
  | _, _ => pg
  end.

(** [focus]: the coordinates the data queries and the map are keyed on. *)
Definition focus (pg : Page) : option CurrentLocation.LatLon :=
  match RegionStore.activeRegion (store pg) with
  | Some r =>
      Some {| CurrentLocation.lat := RegionStore.lat r;
              CurrentLocation.lon := RegionStore.lon r |}
  | None => CurrentLocation.coords (location pg)
  end.

(** [activateRegion] as the render that saw the store [seen] built it,
    called when the store is [s]: the callback closes over the [activeId] of
    its render (a dependency of its [useCallback]), and the setters write
    the cells as they are at the call. Called in its own render, it is
    [RegionStore.activateRegion]. *)
Definition activateRegionOf (seen : RegionStore.Store)
    (region : RegionStore.DashboardRegion) (persist : bool)
    (s : RegionStore.Store) : RegionStore.Store :=
  if persist then
    RegionStore.setActiveId (Some (RegionStore.id region))
      (RegionStore.upsertRegion region (RegionStore.setTemporary None s))
  else
    let s1 := RegionStore.setTemporary (Some region) s in
    if truthy (RegionStore.activeId seen)
    then RegionStore.setActiveId None s1
    else s1.

(** [handleUseCurrent], from the click to the end of the handler, for a
    device that answers as [d]. The handler belongs to the render of the
    click, on the page [pg]. It awaits the promise of [request]; when the
    device has answered, other events may have brought the store to
    [later]. Then the [activateRegion] of the click's render is called:
    [activateRegion(regionFromCoordinates(...), { persist: false })],
    unless the promise gave null. A rejected promise would end the handler
    before the store is touched. *)
Definition handleUseCurrent (d : CurrentLocation.Device) (pg : Page)
    (later : RegionStore.Store) : Page :=
  let '(h, settled) := CurrentLocation.request d (location pg) in
  match settled with
  | CurrentLocation.Fulfilled (Some next) =>
      {| location := h;
         store :=
           activateRegionOf (store pg)
             (regionFromCoordinates (CurrentLocation.lat next)
                (CurrentLocation.lon next))
             false later |}
  | _ => {| location := h; store := later |}
  end.

(** The coordinates a device's answer resolves to. *)
Definition resolved (d : CurrentLocation.Device) : CurrentLocation.LatLon :=
  match d with
  | CurrentLocation.Position latitude longitude =>
      {| CurrentLocation.lat := latitude; CurrentLocation.lon := longitude |}
  | _ => CurrentLocation.NYC_COORDINATES
  end.

End Page.

End Dashboard.

(** * Properties *)

(** Closed decidable goals (membership, distinctness of concrete ids) are
    settled by evaluating their decision procedure. *)
Ltac by_decision := apply (bool_decide_unpack _); vm_compute; reflexivity.

(** ** JavaScript helpers *)

Lemma truthy_Some_ne (s : string) : s ≠ "" → truthy (Some s) = true.
Proof.
  intros Hne. simpl. apply negb_true_iff. by apply String.eqb_neq.
Qed.

Lemma truthy_false_inv (v : option string) :
  truthy v = false ↔ v = None ∨ v = Some "".
Proof.
  destruct v as [s|]; simpl.
  - rewrite negb_false_iff, String.eqb_eq. split.
    + intros ->. by right.
    + intros [?|[= ->]]; done.
  - split; [by left|done].
Qed.

Lemma strict_eq_true (a b : option string) :
  strict_eq a b = true ↔ ∃ x, a = Some x ∧ b = Some x.
Proof.
  destruct a as [x|], b as [y|]; simpl;
    try (split; [done|by intros (? & ? & ?)]).
  rewrite String.eqb_eq. split.
  - intros ->. eauto.
  - intros (? & [= ->] & [= ->]). done.
Qed.

Lemma strict_eq_refl (x : string) : strict_eq (Some x) (Some x) = true.
Proof. apply strict_eq_true. eauto. Qed.

(** ** The saved-region store *)

(** [length] of some texts: one unit for an ASCII character, an accented
    letter and a CJK character, two for a character outside the basic
    plane. *)
Lemma jsLength_samples :
  jsLength "" = 0 ∧ jsLength "ab" = 2 ∧ jsLength "é" = 1
  ∧ jsLength "日本" = 2 ∧ jsLength "😀" = 2.
Proof. vm_compute. done. Qed.

Module StoreFacts.
Import RegionStore.

Section Upsert.

Implicit Types (region item : DashboardRegion) (prev l : list DashboardRegion).

Lemma upsert_length region prev : length (upsert region prev) ≤ MAX_REGIONS.
Proof. unfold upsert. rewrite length_take. lia. Qed.

Lemma ids_filter_elem (P : DashboardRegion → Prop) `{!∀ x, Decision (P x)}
    l (k : string) :
  k ∈ ids (filter P l) → k ∈ ids l.
Proof.
  unfold ids. rewrite !list_elem_of_fmap.
  intros (x & -> & Hx). apply list_elem_of_filter in Hx as [_ Hx]. eauto.
Qed.

Lemma ids_filter_NoDup (P : DashboardRegion → Prop) `{!∀ x, Decision (P x)} l :
  NoDup (ids l) → NoDup (ids (filter P l)).
Proof.
  induction l as [|x l IH]; [done|].
  unfold ids in *. rewrite fmap_cons, NoDup_cons. intros [Hx Hl].
  rewrite filter_cons. case_decide; [|by apply IH].
  rewrite fmap_cons, NoDup_cons. split; [|by apply IH].
  intros Hin. apply Hx. by eapply ids_filter_elem.
Qed.

Lemma ids_filter_fresh region prev :
  id region ∉ ids (filter (λ item, id item ≠ id region) prev).
Proof.
  unfold ids. rewrite list_elem_of_fmap. intros (x & Heq & Hx).
  apply list_elem_of_filter in Hx as [Hne _]. congruence.
Qed.

Lemma upsert_NoDup region prev :
  NoDup (ids prev) → NoDup (ids (upsert region prev)).
Proof.
  intros Hnd. unfold upsert, ids. rewrite fmap_take.
  eapply sublist_NoDup; [|apply sublist_take].
  rewrite fmap_cons, NoDup_cons. split.
  - apply ids_filter_fresh.
  - by apply ids_filter_NoDup.
Qed.

Lemma filter_keeps_all (P : DashboardRegion → Prop) `{!∀ x, Decision (P x)} l :
  (∀ y, y ∈ l → P y) → filter P l = l.
Proof.
  induction l as [|x l IH]; [done|]. intros Hall.
  rewrite filter_cons, decide_True by (apply Hall; left).
  f_equal. apply IH. intros y Hy. apply Hall. by right.
Qed.

(** Removing the one entry that carries a given id shortens the list by one. *)
Lemma filter_one_out (key : string) l :
  NoDup (ids l) → key ∈ ids l →
  S (length (filter (λ item, id item ≠ key) l)) = length l.
Proof.
  induction l as [|x l IH]; unfold ids in *.
  - intros _ Hin. by apply elem_of_nil in Hin.
  - rewrite fmap_cons, NoDup_cons, elem_of_cons. intros [Hx Hl] Hin.
    rewrite filter_cons. case_decide as Hd; simpl.
    + f_equal. apply IH; [done|]. destruct Hin; [congruence|done].
    + assert (id x = key) as <- by (destruct (decide (id x = key)); tauto).
      f_equal. rewrite filter_keeps_all; [done|].
      intros y Hy Heq. apply Hx. rewrite <- Heq.
      by apply list_elem_of_fmap_2.
Qed.

Lemma upserts_invariant (calls : list DashboardRegion) l :
  length l ≤ MAX_REGIONS → NoDup (ids l) →
  length (upserts calls l) ≤ MAX_REGIONS ∧ NoDup (ids (upserts calls l)).
Proof.
  revert l. induction calls as [|region calls IH]; intros l Hlen Hnd; [done|].
  simpl. apply IH; [apply upsert_length|by apply upsert_NoDup].
Qed.

(** C2. Cap invariant: start from a saved list of at most 6 regions with
    distinct ids and make any sequence of upsert calls; after every call of
    the sequence (after its first [k] calls, for every [k]) the saved list
    has at most 6 entries and its ids are pairwise distinct. *)
Theorem upsert_cap_invariant (l calls : list DashboardRegion) (k : nat) :
  length l ≤ 6 → NoDup (ids l) →
  length (upserts (take k calls) l) ≤ 6
  ∧ NoDup (ids (upserts (take k calls) l)).
Proof. apply upserts_invariant. Qed.

Lemma upsert_cap_invariant_witness :
  let l := [place "a"; place "b"] in
  let calls := [place "b"; place "c"; place "a"] in
  (length l ≤ 6 ∧ NoDup (ids l))
  ∧ upserts (take 2 calls) l = [place "c"; place "b"; place "a"]
  ∧ length (upserts (take 2 calls) l) ≤ 6
  ∧ NoDup (ids (upserts (take 2 calls) l)).
Proof.
  intros l calls.
  assert (length l ≤ 6) as Hlen by (simpl; lia).
  assert (NoDup (ids l)) as Hnd by by_decision.
  exact (conj (conj Hlen Hnd)
           (conj eq_refl (upsert_cap_invariant l calls 2 Hlen Hnd))).
Defined.

(** C3, as stated for every list, fails where two entries carry the id of
    the upserted region (the filter removes both, and the list gets
    shorter) and where the list has more than six entries (the slice drops
    the last one). The saved list is read from storage as it is found. *)
Lemma upsert_existing_changes_length :
  (id twin_a ∈ ids [twin_a; twin_b]
   ∧ length (upsert twin_a [twin_a; twin_b]) ≠ length [twin_a; twin_b])
  ∧ (id (place "g") ∈ ids seven
     ∧ length (upsert (place "g") seven) ≠ length seven).
Proof.
  split; (split; [by_decision | vm_compute; lia]).
Qed.

(** C3 (amended). Recency ordering: on a saved list of at most 6 regions
    with pairwise distinct ids that contains the id of the upserted region,
    upsert returns a list of the same length whose first element is the
    upserted region, followed by the other entries in their previous
    order. *)
Theorem upsert_existing_moves_to_front region prev :
  length prev ≤ MAX_REGIONS → NoDup (ids prev) → id region ∈ ids prev →
  length (upsert region prev) = length prev
  ∧ head (upsert region prev) = Some region
  ∧ tail (upsert region prev) = filter (λ item, id item ≠ id region) prev.
Proof.
  intros Hlen Hnd Hin.
  pose proof (filter_one_out (id region) prev Hnd Hin) as Hone.
  unfold upsert. rewrite take_ge by (simpl; lia). simpl. by rewrite Hone.
Qed.

Lemma upsert_existing_moves_to_front_witness :
  let prev := [place "a"; place "x"; place "c"] in
  (length prev ≤ MAX_REGIONS ∧ NoDup (ids prev) ∧ id twin_b ∈ ids prev)
  ∧ length (upsert twin_b prev) = length prev
  ∧ head (upsert twin_b prev) = Some twin_b
  ∧ tail (upsert twin_b prev) = [place "a"; place "c"].
Proof.
  intros prev.
  assert (length prev ≤ MAX_REGIONS) as Hlen
    by (unfold MAX_REGIONS; simpl; lia).
  assert (NoDup (ids prev)) as Hnd by by_decision.
  assert (id twin_b ∈ ids prev) as Hin by by_decision.
  exact (conj (conj Hlen (conj Hnd Hin))
           (upsert_existing_moves_to_front twin_b prev Hlen Hnd Hin)).
Defined.

(** Every operation of the hook keeps the saved list within its invariant,
    so every list the store reaches from empty storage satisfies it. *)
Lemma apply_op_saved_ok (s : Store) (o : Op) :
  saved_ok (regions s) → saved_ok (regions (apply_op s o)).
Proof.
  intros [Hlen Hnd]. destruct o as [region [|]|key|key| | |]; cbn.
  - split; [apply upsert_length|by apply upsert_NoDup].
  - unfold activateRegion. by destruct (truthy (activeId s)).
  - unfold selectExisting. by destruct (find_region key (regions s)).
  - assert (regions (removeRegion key s)
            = filter (λ item, id item ≠ key) (regions s)) as ->.
    { unfold removeRegion.
      by destruct (strict_eq (id <$> temporary s) (Some key)),
                  (strict_eq (activeId s) (Some key)). }
    split; [|by apply ids_filter_NoDup].
    etrans; [apply length_filter|done].
  - unfold persistTemporary. destruct (temporary s) as [t|]; [|done].
    split; [apply upsert_length|by apply upsert_NoDup].
  - assert (regions (clearTemporary s) = regions s) as ->; [|by split].
    unfold clearTemporary. destruct (regions s) as [|first rest] eqn:E;
      [done|].
    by destruct (truthy (activeId s)).
  - unfold bootstrap.
    destruct (bool_decide (is_Some (temporary s)) || truthy (activeId s));
      [done|].
    destruct (regions s) as [|first rest] eqn:E; cbn.
    + split; [unfold MAX_REGIONS; cbn; lia|].
      apply NoDup_singleton.
    + by rewrite E.
Qed.

Lemma reachable_saved_ok (ops : list Op) :
  saved_ok (regions (foldl apply_op empty_storage ops)).
Proof.
  assert (saved_ok (regions empty_storage)) as H0.
  { split; [cbn; lia|constructor]. }
  revert H0. generalize empty_storage.
  induction ops as [|o ops IH]; intros s Hs; [done|].
  cbn. by apply IH, apply_op_saved_ok.
Qed.

End Upsert.

Section Selection.

Implicit Types (s : Store) (t : DashboardRegion) (key : string).

(** C4. Selection precedence: in every store state whose temporary
    selection is set, [activeRegion] (the spec's [currentSelection()])
    returns the temporary selection, whatever the persisted active id and
    the saved list are. *)
Theorem temporary_takes_precedence s t :
  temporary s = Some t → activeRegion s = Some t.
Proof. intros Ht. unfold activeRegion. by rewrite Ht. Qed.

Lemma temporary_takes_precedence_witness :
  let s := {| regions := [place "a"; place "b"]; activeId := Some "b";
              temporary := Some twin_a |} in
  temporary s = Some twin_a ∧ activeRegion s = Some twin_a.
Proof.
  intros s.
  exact (conj eq_refl (temporary_takes_precedence s twin_a eq_refl)).
Defined.

(** C5. Removal cascade, for every store and every id: the saved list loses
    the entries of the removed id; if that id is the active id, the active id
    becomes the id of the first region that remains, or null when none
    remains; and if the temporary selection carries the removed id, it is
    cleared, whatever the active id is. *)
Theorem remove_active_cascade s key :
  let s' := removeRegion key s in
  regions s' = filter (λ item, id item ≠ key) (regions s)
  ∧ (activeId s = Some key →
     activeId s' = id <$> head (regions s')
     ∧ (regions s' = [] → activeId s' = None))
  ∧ (∀ t, temporary s = Some t → id t = key → temporary s' = None).
Proof.
  unfold removeRegion. set (next := filter _ (regions s)).
  assert (∀ s0, (if strict_eq (id <$> temporary s) (Some key)
                 then setTemporary None s0 else s0).(regions) = regions s0
              ∧ (if strict_eq (id <$> temporary s) (Some key)
                 then setTemporary None s0 else s0).(activeId) = activeId s0)
    as Hkeep by (intros s0; by destruct (strict_eq _ _)).
  simpl. split; [|split].
  - by rewrite (proj1 (Hkeep _)).
  - intros Ha. rewrite Ha, strict_eq_refl.
    rewrite (proj1 (Hkeep _)), (proj2 (Hkeep _)). simpl.
    split; [by destruct next|by intros ->].
  - intros t Ht <-. rewrite Ht.
    change (id <$> Some t) with (Some (id t)). by rewrite strict_eq_refl.
Qed.

(** The removed id is the active id and the temporary's; then the ordinary
    case of a temporary selection, shown while the active id is null. *)
Lemma remove_active_cascade_witness :
  let s := {| regions := [place "a"; place "b"; place "c"];
              activeId := Some "a"; temporary := Some (place "a") |} in
  let u := {| regions := [place "a"; place "b"];
              activeId := None; temporary := Some (place "t") |} in
  (regions (removeRegion "a" s) = [place "b"; place "c"]
   ∧ activeId (removeRegion "a" s) = Some "b"
   ∧ temporary (removeRegion "a" s) = None)
  ∧ (regions (removeRegion "t" u) = [place "a"; place "b"]
     ∧ temporary (removeRegion "t" u) = None).
Proof.
  intros s u.
  destruct (remove_active_cascade s "a") as (Hr & Ha & Ht).
  destruct (remove_active_cascade u "t") as (Hr' & _ & Ht').
  exact (conj (conj Hr (conj (proj1 (Ha eq_refl))
                          (Ht (place "a") eq_refl eq_refl)))
           (conj Hr' (Ht' (place "t") eq_refl eq_refl))).
Defined.

(** C6. Bootstrap: from empty persisted storage (no saved region, no
    active id, no temporary selection) the bootstrap effect seeds the saved
    list with the built-in default region and activates it; the current
    selection is then that region, and the effect has nothing more to do. *)
Theorem bootstrap_seeds_default :
  let s := bootstrap empty_storage in
  activeRegion s = Some DEFAULT_REGION
  ∧ regions s = [DEFAULT_REGION]
  ∧ activeId s = Some "default-nyc"
  ∧ temporary s = None
  ∧ bootstrap s = s.
Proof. repeat split. Qed.

(** C10, as stated, fails when the shared id is the empty string: the
    test [!activeId] takes the empty string for no active id. *)
Lemma isTemporary_empty_id :
  let s := {| regions := []; activeId := Some ""; temporary := Some (place "") |} in
  temporary s = Some (place "")
  ∧ activeId s = Some (id (place ""))
  ∧ isTemporary s = true.
Proof. repeat split. Qed.

(** C10 (amended). In every store state whose temporary selection carries
    a non-empty id equal to the persisted active id, [isTemporary] is false
    although [activeRegion] still returns the temporary object; and
    [isTemporary] is true exactly when a temporary selection exists and
    the active id is null or the empty string (the code tests [!activeId])
    or differs from the temporary's id. *)
Theorem isTemporary_spec s :
  (∀ t, temporary s = Some t → activeId s = Some (id t) → id t ≠ "" →
        isTemporary s = false ∧ activeRegion s = Some t)
  ∧ (isTemporary s = true ↔
       ∃ t, temporary s = Some t
            ∧ (activeId s = None ∨ activeId s = Some ""
               ∨ activeId s ≠ Some (id t))).
Proof.
  unfold isTemporary, activeRegion. split.
  - intros t -> -> Hne. rewrite truthy_Some_ne, strict_eq_refl; done.
  - destruct (temporary s) as [t|].
    + rewrite orb_true_iff, !negb_true_iff, truthy_false_inv. split.
      * intros [[?|?]|Hs]; exists t; (split; [done|]); [tauto..|].
        right; right. intros Heq. by rewrite Heq, strict_eq_refl in Hs.
      * intros (? & [= <-] & [?|[?|Hne]]); [tauto..|].
        right. apply not_true_is_false.
        intros (x & [= <-] & Hx)%strict_eq_true. done.
    + split; [done|]. by intros (? & ? & _).
Qed.

Lemma isTemporary_spec_witness :
  let s := {| regions := [place "a"]; activeId := Some "a";
              temporary := Some (place "a") |} in
  (temporary s = Some (place "a") ∧ activeId s = Some (id (place "a"))
   ∧ id (place "a") ≠ "")
  ∧ isTemporary s = false ∧ activeRegion s = Some (place "a").
Proof.
  intros s.
  assert (id (place "a") ≠ "") as Hne by discriminate.
  exact (conj (conj eq_refl (conj eq_refl Hne))
           (proj1 (isTemporary_spec s) (place "a") eq_refl eq_refl Hne)).
Defined.

End Selection.

End StoreFacts.

(** ** The map viewport *)

Module MapFacts.
Import AqiMap.

Lemma eqb_succ_r (n : nat) : Nat.eqb n (S n) = false.
Proof. apply Nat.eqb_neq. lia. Qed.

Lemma following_iff (w : World) :
  followMode w = FOLLOWING ↔ userHasPanned (cells w) = false.
Proof. unfold followMode. by destruct (userHasPanned (cells w)). Qed.

Lemma panned_iff (w : World) :
  followMode w = PANNED ↔ userHasPanned (cells w) = true.
Proof. unfold followMode. by destruct (userHasPanned (cells w)). Qed.

(** The [movestart] of the controller's own [setView] finds nobody
    subscribed: either the cleanup of [MapEventHandler] has run, or the map
    is new. *)
Lemma own_move_unheard (prev cur : Cells) (l : bool) :
  ownMoveHeard prev cur l = false.
Proof.
  unfold ownMoveHeard, listeningDuringEffects, controllerRuns, mapCreated.
  destruct (mapMounted prev), (mapMounted cur); cbn;
    by rewrite ?andb_false_r.
Qed.

(** Unfold one step on a world given by its fields. *)
Ltac step_cells w :=
  destruct w as [[c cg mc mg su up] calls l];
  unfold step, rerender, commit in *;
  cbn -[ownMoveHeard] in *; rewrite ?own_move_unheard;
  unfold controllerRuns, mapCreated, handler, handleMapMove,
    handleRecenterMap, centerEffect, controllerEffect, centerDepsChanged,
    controllerDepsChanged, mapMounted, viewport, followMode in *;
  cbn in *; subst;
  rewrite ?Nat.eqb_refl, ?eqb_succ_r; cbn.

(** [FOLLOWING -> FOLLOWING]: a new selection moves the centre, and
    [handleMapMove] is subscribed afterwards. *)
Lemma step_selection_following (w : World) (a b : LatLon) :
  followMode w = FOLLOWING → center (cells w) = Some a →
  let w' := step w (SelectionChange (Some b)) in
  mapCenter (cells w') = coordsOf b
  ∧ viewport w' = Some (coordsOf b)
  ∧ followMode w' = FOLLOWING
  ∧ listening w' = true.
Proof.
  rewrite following_iff. intros Hup Hc. step_cells w.
  rewrite ?Nat.eqb_refl, ?eqb_succ_r. by destruct su.
Qed.

(** A [movestart] that reaches the handler puts the component in [PANNED],
    whatever it was in. *)
Lemma step_movestart (w : World) :
  listening w = true → followMode (step w MoveStart) = PANNED.
Proof.
  intros Hl. step_cells w.
  destruct c, up, su; cbn; rewrite ?Nat.eqb_refl; reflexivity.
Qed.

(** The handler of [movestart] and the effects that follow it leave the
    cell [mapCenter] alone and call nothing on the map. *)
Lemma step_movestart_keeps (w : World) :
  mapCenter (cells (step w MoveStart)) = mapCenter (cells w)
  ∧ mapCalls (step w MoveStart) = mapCalls w.
Proof.
  step_cells w.
  destruct l, c, up, su; cbn; rewrite ?Nat.eqb_refl; done.
Qed.

(** A [movestart] never leads out of [PANNED]. *)
Lemma step_movestart_panned (w : World) :
  followMode w = PANNED → followMode (step w MoveStart) = PANNED.
Proof.
  intros Hp. destruct (listening w) eqn:Hl; [by apply step_movestart|].
  unfold step. by rewrite Hl.
Qed.

(** In [PANNED] a new selection is recorded in the prop and nothing else
    moves: not the cell [mapCenter], and no call reaches the map. *)
Lemma step_selection_panned (w : World) (a : LatLon) (c' : option LatLon) :
  followMode w = PANNED → center (cells w) = Some a → is_Some c' →
  let w' := step w (SelectionChange c') in
  center (cells w') = c'
  ∧ mapCenter (cells w') = mapCenter (cells w)
  ∧ mapCalls w' = mapCalls w
  ∧ followMode w' = PANNED.
Proof.
  rewrite panned_iff. intros Hup Hc [p ->]. step_cells w.
  rewrite ?Nat.eqb_refl, ?eqb_succ_r. by destruct su.
Qed.

(** Recenter, with a selection at hand: the centre is the selection's and
    the component is back in [FOLLOWING]. *)
Lemma step_recenter (w : World) (a : LatLon) :
  center (cells w) = Some a →
  let w' := step w Recenter in
  mapCenter (cells w') = coordsOf a
  ∧ viewport w' = Some (coordsOf a)
  ∧ followMode w' = FOLLOWING.
Proof.
  intros Hc. step_cells w.
  destruct up, su; cbn; rewrite ?Nat.eqb_refl, ?eqb_succ_r; cbn; done.
Qed.

(** No handler but [handleMapMove] raises [userHasPanned], and no effect
    does: the [movestart] of the controller's own [setView] is part of the
    step, and it is not heard. *)
Lemma step_keeps_following (w : World) (e : Event) :
  e ≠ MoveStart → followMode w = FOLLOWING →
  followMode (step w e) = FOLLOWING.
Proof.
  rewrite following_iff. intros He Hup. destruct e as [v| |]; [|done|].
  - step_cells w. destruct v, c, su, l; cbn;
      rewrite ?Nat.eqb_refl, ?eqb_succ_r; reflexivity.
  - step_cells w. destruct c, su, l; cbn;
      rewrite ?Nat.eqb_refl, ?eqb_succ_r; reflexivity.
Qed.

Lemma run_panned_has_movestart (es : list Event) (w : World) :
  followMode w = FOLLOWING → followMode (run w es) = PANNED →
  MoveStart ∈ es.
Proof.
  revert w. induction es as [|e es IH]; intros w Hf Hp.
  - simpl in Hp. congruence.
  - destruct (isMoveStart e) eqn:He.
    + destruct e; try done. left.
    + right. apply (IH (step w e)); [|done].
      apply step_keeps_following; [|done]. by intros ->.
Qed.

(** Only a new selection changes the [center] prop. *)
Lemma step_center (w : World) (e : Event) :
  center (cells (step w e)) =
    match e with
    | SelectionChange v => v
    | _ => center (cells w)
    end.
Proof.
  destruct e as [v| |]; step_cells w.
  - destruct v, c, up, su, l; cbn;
      rewrite ?Nat.eqb_refl, ?eqb_succ_r; reflexivity.
  - destruct l, c, up, su; cbn;
      rewrite ?Nat.eqb_refl, ?eqb_succ_r; reflexivity.
  - destruct c, up, su, l; cbn;
      rewrite ?Nat.eqb_refl, ?eqb_succ_r; reflexivity.
Qed.

(** After a commit [handleMapMove] is subscribed exactly if the map is
    there. *)
Lemma step_listening (w : World) (e : Event) :
  listening w = mapMounted (cells w) →
  listening (step w e) = mapMounted (cells (step w e)).
Proof.
  intros Hl. destruct e as [v| |]; step_cells w.
  - destruct v, c, up, su; cbn;
      rewrite ?Nat.eqb_refl, ?eqb_succ_r; reflexivity.
  - destruct c, up, su; cbn; rewrite ?Nat.eqb_refl, ?eqb_succ_r; reflexivity.
  - destruct c, up, su; cbn; rewrite ?Nat.eqb_refl, ?eqb_succ_r; reflexivity.
Qed.

Lemma mount_listening (c : option LatLon) :
  listening (mount c) = mapMounted (cells (mount c)).
Proof.
  unfold mount, commit. rewrite own_move_unheard.
  destruct c; reflexivity.
Qed.

(** From the first render on, a pan of the user is heard whenever the map
    is there. *)
Lemma run_listening (c : option LatLon) (es : list Event) :
  listening (run (mount c) es) = mapMounted (cells (run (mount c) es)).
Proof.
  unfold run. generalize (mount_listening c). generalize (mount c).
  induction es as [|e es IH]; intros w Hw; [done|].
  cbn. by apply IH, step_listening.
Qed.

(** Two commits are all a step needs: the effect of [AqiMap] writes none of
    its own dependencies, so the second commit leaves the cells as they are,
    and a third one would find no dependency changed. *)
Lemma rerender_settles (prev cur : Cells) (calls : list MapCall) (l : bool) :
  let w := rerender prev cur calls l in
  cells w = (commit prev cur calls l).1.1
  ∧ commit (cells w) (cells w) (mapCalls w) (listening w)
    = (cells w, mapCalls w, listening w).
Proof.
  destruct prev as [c cg mc mg su up], cur as [c' cg' mc' mg' su' up'].
  unfold rerender, commit. cbn -[ownMoveHeard]. rewrite !own_move_unheard.
  unfold centerDepsChanged. cbn.
  destruct (Nat.eqb cg cg'), up, c' as [p|], up', su', l;
    repeat (progress
              (unfold controllerRuns, mapCreated, centerDepsChanged,
                 controllerDepsChanged, centerEffect, controllerEffect,
                 mapMounted, setShouldUpdateCenter, setMapCenter;
               cbn;
               rewrite ?Nat.eqb_refl, ?eqb_reflx, ?andb_false_r));
    done.
Qed.

(** C1. Viewport state machine. From [FOLLOWING] with region [A] selected:
    selecting [B] moves the centre (the cell [mapCenter] and the view asked
    of the map) to [B]; a pan of the user then gives [PANNED], and selecting
    [C] moves neither the cell nor the map; Recenter moves the centre to [C]
    and gives [FOLLOWING] again. The [movestart] the map raises for a
    [setView] of the controller never reaches [handleMapMove]; no selection
    change and no Recenter, with the effects and map calls they cause, leads
    from [FOLLOWING] to [PANNED]; so a run that starts in [FOLLOWING] and
    ends in [PANNED] contains a pan of the user. *)
Theorem viewport_state_machine (w : World) (A B C : LatLon) :
  followMode w = FOLLOWING → center (cells w) = Some A →
  let w1 := step w (SelectionChange (Some B)) in
  let w2 := step w1 MoveStart in
  let w3 := step w2 (SelectionChange (Some C)) in
  let w4 := step w3 Recenter in
  (mapCenter (cells w1) = coordsOf B ∧ viewport w1 = Some (coordsOf B)
   ∧ followMode w1 = FOLLOWING)
  ∧ followMode w2 = PANNED
  ∧ (mapCenter (cells w3) = coordsOf B ∧ viewport w3 = Some (coordsOf B)
     ∧ mapCalls w3 = mapCalls w2 ∧ followMode w3 = PANNED)
  ∧ (mapCenter (cells w4) = coordsOf C ∧ viewport w4 = Some (coordsOf C)
     ∧ followMode w4 = FOLLOWING)
  ∧ (∀ prev cur l, ownMoveHeard prev cur l = false)
  ∧ (∀ w0 e, e ≠ MoveStart → followMode w0 = FOLLOWING →
             followMode (step w0 e) = FOLLOWING)
  ∧ (∀ w0 es, followMode w0 = FOLLOWING → followMode (run w0 es) = PANNED →
              MoveStart ∈ es).
Proof.
  intros Hf Hc w1 w2 w3 w4.
  assert (center (cells w2) = Some B) as Hc2
    by (subst w2 w1; by rewrite !step_center).
  assert (center (cells w3) = Some C) as Hc3
    by (subst w3; by rewrite step_center).
  destruct (step_selection_following w A B Hf Hc) as (Hm1 & Hv1 & Hf1 & Hl1).
  destruct (step_movestart_keeps w1) as (Hm2 & Hl2).
  assert (followMode w2 = PANNED) as Hp2 by (by apply step_movestart).
  split; [done|].
  split; [done|].
  split.
  { destruct (step_selection_panned w2 B (Some C)) as (_ & Hm3 & Hl3 & ?);
      [done|done|by eexists|].
    fold w3 in Hm3, Hl3. fold w2 in Hm2, Hl2. fold w1 in Hm1, Hv1.
    repeat split; [congruence| |done..].
    unfold viewport in *. congruence. }
  split; [by apply step_recenter|].
  split; [apply own_move_unheard|].
  split; [apply step_keeps_following|].
  intros w0 es. apply run_panned_has_movestart.
Qed.

Lemma viewport_state_machine_witness :
  let w := mount (Some boston) in
  let w1 := step w (SelectionChange (Some chicago)) in
  let w2 := step w1 MoveStart in
  let w3 := step w2 (SelectionChange (Some denver)) in
  let w4 := step w3 Recenter in
  (followMode w = FOLLOWING ∧ center (cells w) = Some boston)
  ∧ viewport w1 = Some (coordsOf chicago)
  ∧ followMode w2 = PANNED
  ∧ viewport w3 = Some (coordsOf chicago)
  ∧ viewport w4 = Some (coordsOf denver)
  ∧ followMode w4 = FOLLOWING.
Proof.
  intros w w1 w2 w3 w4.
  destruct (viewport_state_machine w boston chicago denver
              eq_refl eq_refl)
    as ((_ & H1 & _) & H2 & (_ & H3 & _) & (_ & H4 & H5) & _).
  exact (conj (conj eq_refl eq_refl)
           (conj H1 (conj H2 (conj H3 (conj H4 H5))))).
Defined.

End MapFacts.

(** ** The search box *)

Module SearchFacts.
Import LocationPanel.

Lemma resume_results (o : FetchOutcome) (p : Panel) :
  searchResults (performSearch_resume o p) = displayed o
  ∧ showResults (performSearch_resume o p) = (0 <? length (displayed o))
  ∧ isSearching (performSearch_resume o p) = false
  ∧ searchQuery (performSearch_resume o p) = searchQuery p.
Proof. by destruct o. Qed.

(** C7, as stated, fails: the request for "ab" is issued at 300 ms and the
    one for "abc" at 650 ms; the answer to "abc" arrives first and is shown;
    when the answer to "ab" arrives, "abc" is still the latest issued query,
    and yet the results on display become those of "ab". *)
Lemma stale_response_is_applied :
  let w := run initialWorld
             [Change 0 "ab"; Change 350 "abc";
              Respond 700 "abc" (Ok200 [abcoude])] in
  let w' := step w (Respond 800 "ab" (Ok200 [abilene])) in
  requests w = [(650, "abc"); (300, "ab")]
  ∧ latestIssued w = Some "abc"
  ∧ searchResults (panel w) = [abcoude]
  ∧ latestIssued w' = Some "abc"
  ∧ searchResults (panel w') = [abilene].
Proof. vm_compute. repeat split. Qed.

(** C7 (amended). A response is applied when it arrives, whichever request
    it answers and whichever query was issued last: the results on display
    are those of the response (none for a failed request), the result list
    is shown if it is not empty, and [isSearching] is lowered. The code
    compares nothing with the latest issued query. *)
Theorem response_is_applied_on_arrival
    (w : World) (t : nat) (q : string) (o : FetchOutcome) :
  let w' := step w (Respond t q o) in
  searchResults (panel w') = displayed o
  ∧ showResults (panel w') = (0 <? length (displayed o))
  ∧ isSearching (panel w') = false.
Proof.
  cbn. destruct (resume_results o (panel (advance t w))) as (? & ? & ? & _).
  done.
Qed.

(** *** Debounce *)

Lemma clearTimeout_own (tm : Timer) : clearTimeout (handle tm) [tm] = [].
Proof.
  unfold clearTimeout. rewrite filter_cons.
  case_decide as Hd; [by destruct Hd|done].
Qed.

(** A keystroke leaves its own timer as the only pending one, whatever was
    pending for the previous keystroke, and sends nothing by itself. *)
Lemma handleSearchChange_pending (value : string) (w : World) :
  one_pending w →
  let w' := handleSearchChange value w in
  timers w' = [{| handle := nextHandle w; due := now w + DEBOUNCE_MS;
                  arg := value |}]
  ∧ requests w' = requests w
  ∧ now w' = now w
  ∧ one_pending w'.
Proof.
  intros (Hn & [Ht | (tm & Ht & Href & Hh)]);
    unfold handleSearchChange, one_pending; cbn; rewrite Ht.
  - destruct (searchTimeoutRef (panel w)) as [h|];
      [destruct (Nat.eqb h 0); unfold clearTimeout; rewrite ?filter_nil|];
      (repeat split; [lia |]; right; eexists; repeat split; done).
  - rewrite Href. destruct (Nat.eqb (handle tm) 0) eqn:E;
      [apply Nat.eqb_eq in E; lia|].
    rewrite clearTimeout_own.
    repeat split; [lia |]. right. eexists. repeat split; done.
Qed.



(** Firing a timer touches neither the handle kept by the panel nor the
    handle counter. *)
Lemma fire_keeps (tm : Timer) (w : World) :
  searchTimeoutRef (panel (fire tm w)) = searchTimeoutRef (panel w)
  ∧ nextHandle (fire tm w) = nextHandle w
  ∧ timers (fire tm w) = clearTimeout (handle tm) (timers w).
Proof.
  unfold fire, performSearch_start.
  by destruct (jsLength (arg tm) <? 2).
Qed.

Lemma advance_one_pending (t : nat) (w : World) :
  one_pending w → one_pending (advance t w).
Proof.
  intros (Hn & [Ht | (tm & Ht & Href & Hh)]); unfold advance; rewrite Ht;
    cbn [foldl].
  - split; [done|]. by left.
  - destruct (due tm <? t).
    + destruct (fire_keeps tm w) as (Hr & Hn' & Ht').
      split; cbn; [by rewrite Hn'|]. left.
      by rewrite Ht', Ht, clearTimeout_own.
    + split; [done|]. right. exists tm. by rewrite Ht.
Qed.

(** The debounce keeps at most one timer pending, from the first render on. *)
Lemma step_one_pending (w : World) (e : Event) :
  one_pending w → one_pending (step w e).
Proof.
  intros Hinv. destruct e as [t value | t q o]; cbn [step].
  - by apply handleSearchChange_pending, advance_one_pending.
  - apply (advance_one_pending t) in Hinv.
    destruct Hinv as (Hn & [Ht | (tm & Ht & Href & Hh)]).
    + split; [done|]. by left.
    + split; [done|]. right. exists tm. repeat split; [done| |done].
      cbn. by destruct o.
Qed.

Lemma run_one_pending (es : list Event) (w : World) :
  one_pending w → one_pending (run w es).
Proof.
  revert w. induction es as [|e es IH]; intros w Hw; [done|].
  cbn. by apply IH, step_one_pending.
Qed.

Lemma initial_one_pending : one_pending initialWorld.
Proof. split; [cbn; lia|by left]. Qed.

(** C8. Debounce: keystrokes at 0 ms ("a"), 100 ms ("ab") and 400 ms
    ("abc"), each cancelling the timer that is still pending and setting a
    new one 300 ms ahead; once every timer has fired, exactly one request has
    been issued, for "abc", at 700 ms. *)
Theorem debounce_three_keystrokes :
  let w := quiesce (run initialWorld
                      [Change 0 "a"; Change 100 "ab"; Change 400 "abc"]) in
  requests w = [(700, "abc")] ∧ timers w = [] ∧ now w = 700.
Proof. vm_compute. repeat split. Qed.

End SearchFacts.

(** ** Device geolocation *)

Module LocationFacts.
Import CurrentLocation.

(** C9. Geolocation fallback: when the device has no geolocation, and when
    it calls the error callback, the promise of [request] is fulfilled with
    the fixed coordinate of New York City (40.7128, -74.006), the hook holds
    that coordinate and [locating] is false; while the device has not
    answered, [locating] is true; and whatever the device does, the promise
    is fulfilled with a coordinate, never rejected. *)
Theorem geolocation_fallback (h : Hook) :
  request NoGeolocation h = (fallen_back, Fulfilled (Some NYC_COORDINATES))
  ∧ request PositionError h = (fallen_back, Fulfilled (Some NYC_COORDINATES))
  ∧ lat NYC_COORDINATES = 40.7128%float
  ∧ lon NYC_COORDINATES = (-74.006)%float
  ∧ locating (fst (request_start PositionError h)) = true
  ∧ (∀ d, locating (fst (request d h)) = false
          ∧ ∃ v, snd (request d h) = Fulfilled (Some v)).
Proof.
  repeat split; try reflexivity; destruct d; try reflexivity; by eexists.
Qed.

End LocationFacts.

(** * Further properties of the store *)

Module StoreExtras.
Import RegionStore.

Implicit Types (s : Store) (region r t : DashboardRegion) (key : string)
  (l prev : list DashboardRegion).

(** ** Lookup by id *)

Lemma find_region_Some key l r :
  find_region key l = Some r → id r = key ∧ r ∈ l.
Proof.
  unfold find_region. induction l as [|x l IH]; [done|]. simpl.
  destruct (String.eqb (id x) key) eqn:E.
  - intros [= ->]. apply String.eqb_eq in E. split; [done|left].
  - intros H. destruct (IH H) as [? ?]. split; [done|by right].
Qed.

Lemma find_region_elem key l :
  key ∈ ids l → is_Some (find_region key l).
Proof.
  unfold find_region, ids. induction l as [|x l IH].
  - intros H. by apply elem_of_nil in H.
  - rewrite fmap_cons, elem_of_cons. simpl. intros [->|H].
    + by rewrite String.eqb_refl.
    + destruct (String.eqb (id x) key); [done|by apply IH].
Qed.

Lemma find_region_head r l : find_region (id r) (r :: l) = Some r.
Proof. unfold find_region. simpl. by rewrite String.eqb_refl. Qed.

Lemma find_region_filter key k l :
  k ≠ key →
  find_region k (filter (λ item, id item ≠ key) l) = find_region k l.
Proof.
  intros Hne. unfold find_region. induction l as [|x l IH]; [done|].
  rewrite filter_cons. case_decide as Hd; simpl.
  - by rewrite IH.
  - assert (id x = key) as Hx by (destruct (decide (id x = key)); tauto).
    rewrite IH. destruct (String.eqb (id x) k) eqn:E; [|done].
    apply String.eqb_eq in E. congruence.
Qed.

Lemma upsert_head region prev :
  upsert region prev
  = region :: take 5 (filter (λ item, id item ≠ id region) prev).
Proof. reflexivity. Qed.

(** ** Inserting a new region *)

(** X1. Upserting an id that is not in the list puts the region in front of
    the first five entries: a full list loses its last, oldest entry. *)
Theorem upsert_fresh_evicts_oldest region prev :
  id region ∉ ids prev →
  upsert region prev = region :: take 5 prev.
Proof.
  intros Hfresh. rewrite upsert_head. f_equal. f_equal.
  apply StoreFacts.filter_keeps_all. intros y Hy Heq. apply Hfresh.
  rewrite <- Heq. unfold ids. by apply list_elem_of_fmap_2.
Qed.

Lemma upsert_fresh_evicts_oldest_witness :
  let prev := place <$> ["a"; "b"; "c"; "d"; "e"; "f"] in
  (id (place "g") ∉ ids prev)
  ∧ upsert (place "g") prev = place <$> ["g"; "a"; "b"; "c"; "d"; "e"].
Proof.
  intros prev.
  assert (id (place "g") ∉ ids prev) as Hfresh by by_decision.
  exact (conj Hfresh (upsert_fresh_evicts_oldest (place "g") prev Hfresh)).
Defined.

(** ** Activating, saving and discarding a selection *)

Lemma activate_persist_fields region s :
  id region ≠ "" →
  activeRegion (activateRegion region true s) = Some region
  ∧ head (regions (activateRegion region true s)) = Some region
  ∧ activeId (activateRegion region true s) = Some (id region)
  ∧ temporary (activateRegion region true s) = None
  ∧ isTemporary (activateRegion region true s) = false.
Proof.
  intros Hne. unfold activeRegion, isTemporary.
  cbn -[truthy upsert find_region].
  by rewrite (truthy_Some_ne _ Hne), upsert_head, find_region_head.
Qed.

Lemma activate_temporary_fields region s :
  activeRegion (activateRegion region false s) = Some region
  ∧ isTemporary (activateRegion region false s) = true
  ∧ regions (activateRegion region false s) = regions s
  ∧ truthy (activeId (activateRegion region false s)) = false.
Proof.
  unfold activateRegion, activeRegion, isTemporary.
  destruct (truthy (activeId s)) eqn:E; cbn; by rewrite ?E.
Qed.

Lemma persist_activate_temporary region s :
  persistTemporary (activateRegion region false s)
  = activateRegion region true s.
Proof.
  unfold persistTemporary, activateRegion.
  by destruct (truthy (activeId s)).
Qed.

(** X2. Activating a region with a non-empty id and persistence makes it the
    current selection: it is the first saved region, it is the active one,
    and no temporary selection is left. *)
Theorem activate_persist_selects region s :
  id region ≠ "" →
  let s' := activateRegion region true s in
  activeRegion s' = Some region
  ∧ head (regions s') = Some region
  ∧ activeId s' = Some (id region)
  ∧ temporary s' = None
  ∧ isTemporary s' = false.
Proof. apply activate_persist_fields. Qed.

Lemma activate_persist_selects_witness :
  let s := {| regions := [place "a"; place "b"]; activeId := Some "a";
              temporary := Some (place "t") |} in
  id (place "b") ≠ ""
  ∧ activeRegion (activateRegion (place "b") true s) = Some (place "b")
  ∧ regions (activateRegion (place "b") true s) = [place "b"; place "a"].
Proof.
  intros s.
  assert (id (place "b") ≠ "") as Hne by discriminate.
  exact (conj Hne
           (conj (proj1 (activate_persist_selects (place "b") s Hne))
                 eq_refl)).
Defined.

(** X3. Activating a region without persistence makes it the current
    selection and a temporary one, whatever was active before; the saved
    list is left as it was and no active id stays set. *)
Theorem activate_temporary_overrides region s :
  let s' := activateRegion region false s in
  activeRegion s' = Some region
  ∧ isTemporary s' = true
  ∧ regions s' = regions s
  ∧ truthy (activeId s') = false.
Proof. apply activate_temporary_fields. Qed.

(** X4. Saving a freshly picked temporary region gives the very state that
    activating it with persistence would have given. *)
Theorem persist_after_temporary region s :
  persistTemporary (activateRegion region false s)
  = activateRegion region true s.
Proof. apply persist_activate_temporary. Qed.

(** X5. Discarding a temporary selection does not return to the region that
    was active before it: the active id was dropped when the temporary
    region was activated, and the first saved region is activated. *)
Theorem clear_after_temporary region s first rest :
  regions s = first :: rest →
  let s' := clearTemporary (activateRegion region false s) in
  activeId s' = Some (id first)
  ∧ temporary s' = None
  ∧ regions s' = regions s.
Proof.
  intros Hr s'. subst s'. unfold clearTemporary, activateRegion.
  destruct (truthy (activeId s)) eqn:E; cbn; rewrite Hr; cbn;
    by rewrite ?E, ?Hr.
Qed.

Lemma clear_after_temporary_witness :
  let s := {| regions := [place "a"; place "b"]; activeId := Some "b";
              temporary := None |} in
  regions s = [place "a"; place "b"]
  ∧ activeRegion s = Some (place "b")
  ∧ activeId (clearTemporary (activateRegion (place "t") false s))
    = Some "a".
Proof.
  intros s.
  exact (conj eq_refl (conj eq_refl
           (proj1 (clear_after_temporary (place "t") s (place "a")
                     [place "b"] eq_refl)))).
Defined.

(** ** Selecting a saved region *)

(** X6. Selecting an id that no saved region carries changes nothing;
    selecting a non-empty id that one carries clears the temporary
    selection and makes a saved region of that id the current selection. *)
Theorem selectExisting_spec key s :
  (key ∉ ids (regions s) → selectExisting key s = s)
  ∧ (key ∈ ids (regions s) → key ≠ "" →
     temporary (selectExisting key s) = None
     ∧ regions (selectExisting key s) = regions s
     ∧ ∃ r, activeRegion (selectExisting key s) = Some r
            ∧ id r = key ∧ r ∈ regions s).
Proof.
  unfold selectExisting. split.
  - intros Hnot. destruct (find_region key (regions s)) as [r|] eqn:E; [|done].
    destruct (find_region_Some _ _ _ E) as [<- Hin].
    exfalso. apply Hnot. unfold ids. by apply list_elem_of_fmap_2.
  - intros Hin Hne. destruct (find_region_elem _ _ Hin) as [r E].
    rewrite E. unfold activeRegion. cbn -[truthy find_region].
    rewrite (truthy_Some_ne _ Hne), E.
    repeat split. exists r. by destruct (find_region_Some _ _ _ E).
Qed.

Lemma selectExisting_spec_witness :
  let s := {| regions := [place "a"; place "b"]; activeId := Some "a";
              temporary := Some (place "t") |} in
(("z" ∉ ids (regions s)) ∧ "b" ∈ ids (regions s))
  ∧ selectExisting "z" s = s
  ∧ temporary (selectExisting "b" s) = None.
Proof.
  intros s.
  assert ("z" ∉ ids (regions s)) as Hz by by_decision.
  assert ("b" ∈ ids (regions s)) as Hb by by_decision.
  exact (conj (conj Hz Hb)
           (conj (proj1 (selectExisting_spec "z" s) Hz)
                 (proj1 (proj2 (selectExisting_spec "b" s) Hb
                           ltac:(discriminate))))).
Defined.

(** ** Removing a region *)

Lemma removeRegion_fields key s :
  regions (removeRegion key s) = filter (λ item, id item ≠ key) (regions s)
  ∧ activeId (removeRegion key s) =
      (if strict_eq (activeId s) (Some key)
       then id <$> head (filter (λ item, id item ≠ key) (regions s))
       else activeId s)
  ∧ temporary (removeRegion key s) =
      (if strict_eq (id <$> temporary s) (Some key) then None
       else temporary s).
Proof.
  unfold removeRegion.
  destruct (strict_eq (id <$> temporary s) (Some key)),
           (strict_eq (activeId s) (Some key)); cbn; repeat split;
    by destruct (filter _ (regions s)).
Qed.

Lemma strict_eq_false_ne (a : option string) key :
  strict_eq a (Some key) = false → a ≠ Some key.
Proof. intros H ->. by rewrite strict_eq_refl in H. Qed.

Lemma filter_out_not_elem key l :
  key ∉ ids (filter (λ item, id item ≠ key) l).
Proof.
  unfold ids. rewrite list_elem_of_fmap. intros (x & Heq & Hx).
  apply list_elem_of_filter in Hx as [Hne _]. congruence.
Qed.

(** X7. After a removal the removed id is gone from every place the store
    keeps it: no saved region carries it, it is not the active id, the
    temporary selection does not carry it, and the current selection is
    never a region of that id. *)
Theorem remove_erases_id key s :
  let s' := removeRegion key s in
  (key ∉ ids (regions s'))
  ∧ activeId s' ≠ Some key
  ∧ (∀ t, temporary s' = Some t → id t ≠ key)
  ∧ (∀ r, activeRegion s' = Some r → id r ≠ key).
Proof.
  intros s'. subst s'.
  destruct (removeRegion_fields key s) as (Hr & Ha & Ht).
  assert (key ∉ ids (regions (removeRegion key s))) as Hlist
    by (rewrite Hr; apply filter_out_not_elem).
  assert (activeId (removeRegion key s) ≠ Some key) as Hact.
  { rewrite Ha. destruct (strict_eq (activeId s) (Some key)) eqn:E.
    - destruct (filter _ (regions s)) as [|x l] eqn:Ef; [done|].
      cbn. intros [= Hx].
      assert (x ∈ filter (λ item, id item ≠ key) (regions s)) as Hin
        by (rewrite Ef; left).
      apply list_elem_of_filter in Hin as [Hne _]. done.
    - by apply strict_eq_false_ne. }
  assert (∀ t, temporary (removeRegion key s) = Some t → id t ≠ key) as Htmp.
  { intros t. rewrite Ht.
    destruct (strict_eq (id <$> temporary s) (Some key)) eqn:E; [done|].
    intros Hs Heq. apply strict_eq_false_ne in E. apply E.
    by rewrite Hs, <- Heq. }
  repeat split; [done..|].
  intros r. unfold activeRegion.
  destruct (temporary (removeRegion key s)) as [t|] eqn:Et.
  - intros [= <-]. by apply Htmp.
  - destruct (activeId (removeRegion key s)) as [a|]; [|done].
    destruct (truthy (Some a)); [|done].
    intros Hf. destruct (find_region_Some _ _ _ Hf) as [<- Hin].
    intros <-. by apply Hact.
Qed.

(** X8. Removing an id that is not saved, not active and not the temporary
    selection's changes nothing. *)
Theorem remove_unknown_is_noop key s :
  key ∉ ids (regions s) → activeId s ≠ Some key →
  (∀ t, temporary s = Some t → id t ≠ key) →
  removeRegion key s = s.
Proof.
  intros Hlist Hact Htmp.
  assert (filter (λ item, id item ≠ key) (regions s) = regions s) as Hf.
  { apply StoreFacts.filter_keeps_all. intros y Hy Heq. apply Hlist.
    rewrite <- Heq. unfold ids. by apply list_elem_of_fmap_2. }
  unfold removeRegion. rewrite Hf.
  assert (strict_eq (activeId s) (Some key) = false) as ->.
  { apply not_true_is_false. intros (x & Hx & [= <-])%strict_eq_true. done. }
  assert (strict_eq (id <$> temporary s) (Some key) = false) as ->.
  { apply not_true_is_false. intros (x & Hx & [= <-])%strict_eq_true.
    destruct (temporary s) as [t|] eqn:Et; [|done].
    injection Hx as Hx. by apply (Htmp t). }
  by destruct s.
Qed.

Lemma remove_unknown_is_noop_witness :
  let s := {| regions := [place "a"; place "b"]; activeId := Some "a";
              temporary := Some (place "t") |} in
  ("z" ∉ ids (regions s)) ∧ removeRegion "z" s = s.
Proof.
  intros s.
  assert ("z" ∉ ids (regions s)) as Hz by by_decision.
  refine (conj Hz (remove_unknown_is_noop "z" s Hz _ _)).
  - discriminate.
  - intros t [= <-]. discriminate.
Defined.

(** X9. Removing a saved region other than the active one leaves the active
    id alone, and the region it names stays the current selection. *)
Theorem remove_other_keeps_selection key s :
  activeId s ≠ Some key → temporary s = None →
  activeId (removeRegion key s) = activeId s
  ∧ activeRegion (removeRegion key s) = activeRegion s.
Proof.
  intros Hact Htmp.
  destruct (removeRegion_fields key s) as (Hr & Ha & Ht).
  assert (strict_eq (activeId s) (Some key) = false) as E.
  { apply not_true_is_false. intros (x & Hx & [= <-])%strict_eq_true. done. }
  rewrite E in Ha. split; [done|].
  unfold activeRegion. rewrite Ht, Ha, Hr, Htmp.
  cbn -[truthy find_region].
  destruct (activeId s) as [a|]; [|done].
  destruct (truthy (Some a)); [|done].
  apply find_region_filter. congruence.
Qed.

Lemma remove_other_keeps_selection_witness :
  let s := {| regions := [place "a"; place "b"; place "c"];
              activeId := Some "c"; temporary := None |} in
  (activeId s ≠ Some "a" ∧ temporary s = None)
  ∧ regions (removeRegion "a" s) = [place "b"; place "c"]
  ∧ activeRegion (removeRegion "a" s) = Some (place "c").
Proof.
  intros s.
  assert (activeId s ≠ Some "a") as Hne by discriminate.
  destruct (remove_other_keeps_selection "a" s Hne eq_refl) as [_ Hsel].
  exact (conj (conj Hne eq_refl) (conj eq_refl Hsel)).
Defined.

(** ** What every reachable store satisfies *)

(** The active id, when set, is the id of a saved region. *)
Definition active_saved s : Prop :=
  ∀ a, activeId s = Some a → a ∈ ids (regions s).

Lemma ids_filter_other key a l :
  a ∈ ids l → a ≠ key → a ∈ ids (filter (λ item, id item ≠ key) l).
Proof.
  unfold ids. rewrite !list_elem_of_fmap. intros (x & -> & Hx) Hne.
  exists x. split; [done|]. by apply list_elem_of_filter.
Qed.

Lemma upsert_has_id region prev : id region ∈ ids (upsert region prev).
Proof. rewrite upsert_head. unfold ids. rewrite fmap_cons. left. Qed.

Lemma head_id_elem l x : head l = Some x → id x ∈ ids l.
Proof.
  destruct l as [|y l]; [done|]. intros [= ->]. unfold ids.
  rewrite fmap_cons. left.
Qed.

Lemma apply_op_active_saved s (o : Op) :
  active_saved s → active_saved (apply_op s o).
Proof.
  intros Hinv. destruct o as [region [|]|key|key| | |]; cbn [apply_op].
  - intros a [= <-]. apply upsert_has_id.
  - unfold activateRegion. destruct (truthy (activeId s)); [done|].
    exact Hinv.
  - unfold selectExisting.
    destruct (find_region key (regions s)) as [r|] eqn:E; [|done].
    intros a [= <-]. destruct (find_region_Some _ _ _ E) as [<- Hin].
    unfold ids. cbn. by apply list_elem_of_fmap_2.
  - destruct (removeRegion_fields key s) as (Hr & Ha & _).
    intros a. rewrite Ha, Hr.
    destruct (strict_eq (activeId s) (Some key)) eqn:E.
    + destruct (filter _ (regions s)) as [|x l]; [done|].
      intros [= <-]. unfold ids. rewrite fmap_cons. left.
    + intros Hs. apply ids_filter_other; [by apply Hinv|].
      apply strict_eq_false_ne in E. congruence.
  - unfold persistTemporary. destruct (temporary s) as [t|]; [|done].
    intros a [= <-]. apply upsert_has_id.
  - unfold clearTemporary. destruct (regions s) as [|first rest] eqn:E.
    + intros a Ha. by apply Hinv.
    + destruct (truthy (activeId s)).
      * intros a Ha. by apply Hinv.
      * intros a [= <-]. cbn. rewrite E. unfold ids. rewrite fmap_cons. left.
  - unfold bootstrap.
    destruct (bool_decide (is_Some (temporary s)) || truthy (activeId s));
      [done|].
    destruct (regions s) as [|first rest] eqn:E.
    + intros a [= <-]. cbn. left.
    + intros a [= <-]. cbn. rewrite E. unfold ids. rewrite fmap_cons. left.
Qed.

(** X10. Whatever the user does from empty storage on (activate, select, remove,
    save or discard the temporary selection, with the bootstrap effect run
    in between at any point), the saved list holds at most 6 regions with
    pairwise distinct ids and the active id, when set, is the id of one
    of them. *)
Theorem reachable_store_invariant (ops : list Op) :
  let s := foldl apply_op empty_storage ops in
  length (regions s) ≤ 6
  ∧ NoDup (ids (regions s))
  ∧ ∀ a, activeId s = Some a → a ∈ ids (regions s).
Proof.
  intros s. destruct (StoreFacts.reachable_saved_ok ops) as [Hlen Hnd].
  split; [exact Hlen|]. split; [exact Hnd|]. subst s. clear Hlen Hnd.
  assert (active_saved empty_storage) as H0 by (intros a [=]).
  revert H0. generalize empty_storage.
  induction ops as [|o ops IH]; intros s0 Hs0; [done|].
  cbn. by apply IH, apply_op_active_saved.
Qed.

(** ** The bootstrap effect *)

(** X11. Running the bootstrap effect a second time changes nothing: the effect
    cannot keep re-triggering itself. *)
Theorem bootstrap_idempotent s : bootstrap (bootstrap s) = bootstrap s.
Proof.
  destruct (bool_decide (is_Some (temporary s)) || truthy (activeId s)) eqn:E.
  - assert (bootstrap s = s) as -> by (unfold bootstrap; by rewrite E).
    unfold bootstrap. by rewrite E.
  - destruct (regions s) as [|first rest] eqn:Er.
    + assert (bootstrap s = setRegions [DEFAULT_REGION]
                              (setActiveId (Some (id DEFAULT_REGION)) s))
        as -> by (unfold bootstrap; by rewrite E, Er).
      unfold bootstrap. cbn. by apply orb_false_iff in E as [-> _].
    + assert (bootstrap s = setActiveId (Some (id first)) s) as ->
        by (unfold bootstrap; by rewrite E, Er).
      unfold bootstrap. cbn -[truthy]. rewrite Er.
      apply orb_false_iff in E as [-> _]. cbn -[truthy].
      by destruct (truthy (Some (id first))).
Qed.

(** X12. Once the bootstrap effect has run there is a current selection,
    provided the active id names a saved region whenever it is set and no
    saved region has the empty id: the temporary region, the active saved
    region, the first saved region, or the built-in default. *)
Theorem bootstrap_selection_not_null s :
  (∀ a, activeId s = Some a → a ∈ ids (regions s)) →
  "" ∉ ids (regions s) →
  is_Some (activeRegion (bootstrap s)).
Proof.
  intros Hact Hids. unfold bootstrap.
  destruct (temporary s) as [t|] eqn:Et.
  - cbn. unfold activeRegion. by rewrite Et.
  - cbn -[truthy]. destruct (truthy (activeId s)) eqn:Ea.
    + unfold activeRegion. rewrite Et.
      destruct (activeId s) as [a|] eqn:Eid; [|done].
      rewrite Ea. by apply find_region_elem, Hact.
    + destruct (regions s) as [|first rest] eqn:Er.
      { unfold activeRegion. cbn. rewrite Et. by eexists. }
      unfold activeRegion. cbn -[truthy find_region]. rewrite Et, Er.
      assert (id first ≠ "") as Hne.
      { intros Heq. apply Hids. rewrite <- Heq. unfold ids.
        rewrite fmap_cons. left. }
      rewrite (truthy_Some_ne _ Hne), find_region_head. by eexists.
Qed.

Lemma bootstrap_selection_not_null_witness :
  let s := {| regions := [place "a"; place "b"]; activeId := None;
              temporary := None |} in
  ((∀ a, activeId s = Some a → a ∈ ids (regions s))
   ∧ "" ∉ ids (regions s))
  ∧ activeRegion (bootstrap s) = Some (place "a")
  ∧ is_Some (activeRegion (bootstrap s)).
Proof.
  intros s.
  assert (∀ a, activeId s = Some a → a ∈ ids (regions s)) as Hact
    by (intros a [=]).
  assert ("" ∉ ids (regions s)) as Hids by by_decision.
  exact (conj (conj Hact Hids)
           (conj eq_refl (bootstrap_selection_not_null s Hact Hids))).
Defined.

End StoreExtras.

(** * Further properties of the search box *)

Module SearchExtras.
Import LocationPanel.

Implicit Types (w : World) (tm : Timer) (es : list Event).

(** What [fire] does to each field, case by case on the query length. *)
Lemma fire_fields tm w :
  timers (fire tm w) = clearTimeout (handle tm) (timers w)
  ∧ nextHandle (fire tm w) = nextHandle w
  ∧ searchTimeoutRef (panel (fire tm w)) = searchTimeoutRef (panel w)
  ∧ requests (fire tm w) =
      (if jsLength (arg tm) <? 2 then requests w
       else (Nat.max (now w) (due tm), arg tm) :: requests w).
Proof.
  unfold fire, performSearch_start.
  by destruct (jsLength (arg tm) <? 2).
Qed.

(** A property of worlds that no handler breaks holds after every run. *)
Lemma run_quiesce_preserves (P : World → Prop) :
  (∀ tm w, P w → P (fire tm w)) →
  (∀ t w, P w → P {| panel := panel w; now := Nat.max (now w) t;
                     timers := timers w; nextHandle := nextHandle w;
                     requests := requests w |}) →
  (∀ value w, P w → P (handleSearchChange value w)) →
  (∀ o w, P w → P (setPanel (performSearch_resume o (panel w)) w)) →
  ∀ es w, P w → P (quiesce (run w es)).
Proof.
  intros Hfire Hclock Hchange Hresume.
  assert (∀ (f : Timer → bool) ts w,
            P w → P (foldl (λ acc tm, if f tm then fire tm acc else acc) w ts))
    as Hfold.
  { intros f ts. induction ts as [|tm ts IH]; intros w Hw; [done|].
    cbn. apply IH. destruct (f tm); [by apply Hfire|done]. }
  assert (∀ t w, P w → P (advance t w)) as Hadv.
  { intros t w Hw. unfold advance.
    by apply (Hclock t (foldl _ w (timers w))), Hfold. }
  assert (∀ w, P w → P (quiesce w)) as Hq.
  { intros w Hw. unfold quiesce. by apply (Hfold (λ _, true)). }
  intros es. induction es as [|e es IH]; intros w Hw; [by apply Hq|].
  cbn [run foldl]. apply IH. destruct e as [t value|t q o]; cbn [step].
  - by apply Hchange, Hadv.
  - by apply Hresume, Hadv.
Qed.

(** X13. Whatever the user types and whenever the answers arrive, at most one
    debounce timer is pending, and it is the one whose handle
    [searchTimeoutRef] keeps. *)
Theorem at_most_one_timer_pending es :
  let w := run initialWorld es in
  0 < nextHandle w
  ∧ (timers w = []
     ∨ ∃ tm, timers w = [tm]
             ∧ searchTimeoutRef (panel w) = Some (handle tm)
             ∧ 0 < handle tm).
Proof.
  exact (SearchFacts.run_one_pending es initialWorld
           SearchFacts.initial_one_pending).
Qed.

(** X15. No request is ever sent for a query whose [length] is below two, in
    the UTF-16 units that [query.length] counts. *)
Theorem short_queries_never_requested es :
  Forall (λ r, 2 ≤ jsLength r.2)
    (requests (quiesce (run initialWorld es))).
Proof.
  apply (run_quiesce_preserves
           (λ w, Forall (λ r, 2 ≤ jsLength r.2) (requests w))).
  - intros tm w Hw. destruct (fire_fields tm w) as (_ & _ & _ & ->).
    destruct (jsLength (arg tm) <? 2) eqn:E; [done|].
    constructor; [|done]. cbn. apply Nat.ltb_ge in E. lia.
  - done.
  - done.
  - done.
  - constructor.
Qed.

(** The number of keystrokes among the events. *)
Definition keystrokes es : nat :=
  foldr (λ e n, match e with Change _ _ => S n | Respond _ _ _ => n end) 0 es.

(** Requests sent plus timers pending. *)
Definition load w : nat := length (requests w) + length (timers w).

Lemma fire_only_load tm w :
  timers w = [tm] → load (fire tm w) ≤ load w ∧ timers (fire tm w) = [].
Proof.
  intros Ht. destruct (fire_fields tm w) as (Ht' & _ & _ & Hr).
  unfold load. rewrite Ht', Hr, Ht, SearchFacts.clearTimeout_own.
  destruct (jsLength (arg tm) <? 2); cbn; split; (lia || done).
Qed.

Lemma advance_load t w : one_pending w → load (advance t w) ≤ load w.
Proof.
  intros (_ & [Ht | (tm & Ht & _)]); unfold advance; rewrite Ht; cbn [foldl].
  - unfold load. cbn. by rewrite Ht.
  - destruct (due tm <? t).
    + destruct (fire_only_load tm w Ht) as [Hl _]. exact Hl.
    + unfold load. cbn. by rewrite Ht.
Qed.

Lemma quiesce_load w :
  one_pending w → length (requests (quiesce w)) ≤ load w.
Proof.
  intros (_ & [Ht | (tm & Ht & _)]); unfold quiesce; rewrite Ht; cbn [foldl].
  - unfold load. lia.
  - destruct (fire_only_load tm w Ht) as [Hl _]. unfold load in *. lia.
Qed.

Lemma run_load es w n :
  one_pending w → load w ≤ n →
  length (requests (quiesce (run w es))) ≤ n + keystrokes es.
Proof.
  revert w n. induction es as [|e es IH]; intros w n Hinv Hn.
  - cbn. pose proof (quiesce_load w Hinv). lia.
  - pose proof (advance_load (match e with Change t _ | Respond t _ _ => t end)
                  w Hinv) as Hadv.
    destruct e as [t value|t q o].
    + change (run w (Change t value :: es))
        with (run (step w (Change t value)) es).
      change (keystrokes (Change t value :: es)) with (S (keystrokes es)).
      replace (n + S (keystrokes es)) with (S n + keystrokes es) by lia.
      apply IH; [by apply SearchFacts.step_one_pending|].
      cbn [step].
      destruct (SearchFacts.handleSearchChange_pending value (advance t w))
        as (Ht & Hr & _ & _); [by apply SearchFacts.advance_one_pending|].
      unfold load in *. rewrite Ht, Hr. cbn [length]. lia.
    + change (run w (Respond t q o :: es))
        with (run (step w (Respond t q o)) es).
      change (keystrokes (Respond t q o :: es)) with (keystrokes es).
      apply IH; [by apply SearchFacts.step_one_pending|].
      cbn [step]. unfold load in *.
      cbn [setPanel requests timers]. lia.
Qed.

(** X16. The debounce never multiplies requests: once every timer has fired,
    no more requests have been sent than keys were struck. *)
Theorem requests_bounded_by_keystrokes es :
  length (requests (quiesce (run initialWorld es))) ≤ keystrokes es.
Proof.
  apply (run_load es initialWorld 0 SearchFacts.initial_one_pending).
  unfold load. cbn. lia.
Qed.

(** X17. Changing the text to one whose [length] is below two (in UTF-16 units,
    as [query.length] counts: the empty text, one ASCII character, one
    accented letter) empties the result list once the debounce delay has
    passed, without a request. *)
Theorem short_query_clears_results (t : nat) (value : string) w :
  one_pending w → now w ≤ t → Forall (λ tm, t ≤ due tm) (timers w) →
  jsLength value < 2 →
  let w' := quiesce (step w (Change t value)) in
  searchResults (panel w') = []
  ∧ showResults (panel w') = false
  ∧ searchQuery (panel w') = value
  ∧ requests w' = requests w.
Proof.
  intros Hinv Hnow Hdue Hshort w'. subst w'.
  change (step w (Change t value))
    with (handleSearchChange value (advance t w)).
  destruct (SearchFacts.handleSearchChange_pending value (advance t w))
    as (Ht & Hr & _ & _); [by apply SearchFacts.advance_one_pending|].
  assert (requests (advance t w) = requests w) as Hreq.
  { unfold advance. destruct Hinv as (_ & [Hw | (tm & Hw & _)]); rewrite Hw.
    - done.
    - rewrite Hw in Hdue. apply Forall_inv in Hdue. cbn [foldl].
      by rewrite (proj2 (Nat.ltb_ge (due tm) t)). }
  unfold quiesce. rewrite Ht. cbn [foldl]. unfold fire, performSearch_start.
  cbn -[Nat.ltb handleSearchChange advance].
  rewrite (proj2 (Nat.ltb_lt _ _) Hshort).
  cbn -[advance]. by rewrite Hreq.
Qed.

Lemma short_query_clears_results_witness :
  let w := step (run initialWorld [Change 0 "bo"])
             (Respond 400 "bo" (Ok200 [abilene])) in
  (one_pending w ∧ now w ≤ 900 ∧ Forall (λ tm, 900 ≤ due tm) (timers w)
   ∧ jsLength "é" < 2)
  ∧ searchResults (panel w) = [abilene]
  ∧ searchResults (panel (quiesce (step w (Change 900 "é")))) = [].
Proof.
  intros w.
  assert (one_pending w) as Hinv
    by (apply SearchFacts.step_one_pending, SearchFacts.run_one_pending,
          SearchFacts.initial_one_pending).
  assert (now w ≤ 900) as Hnow by (vm_compute; lia).
  assert (Forall (λ tm, 900 ≤ due tm) (timers w)) as Hdue by constructor.
  assert (jsLength "é" < 2) as Hlen by (vm_compute; lia).
  exact (conj (conj Hinv (conj Hnow (conj Hdue Hlen)))
           (conj eq_refl
              (proj1 (short_query_clears_results 900 "é" w
                        Hinv Hnow Hdue Hlen)))).
Defined.



End SearchExtras.

(** * Properties of the panel over the store and the search box *)

Module PanelExtras.
Import PanelView.

(** ** Unmounting *)

(** X18. Unmounting the panel cancels the pending search: no timer is left, and
    no request goes out afterwards. *)
Theorem unmount_cancels_search (w : LocationPanel.World) :
  LocationPanel.one_pending w →
  LocationPanel.timers (unmount w) = []
  ∧ LocationPanel.requests (LocationPanel.quiesce (unmount w))
    = LocationPanel.requests w.
Proof.
  intros (_ & [Ht | (tm & Ht & Href & Hh)]); unfold unmount.
  - destruct (LocationPanel.searchTimeoutRef (LocationPanel.panel w)) as [h|].
    + destruct (Nat.eqb h 0).
      * unfold LocationPanel.quiesce. by rewrite Ht.
      * unfold LocationPanel.quiesce. cbn. by rewrite Ht.
    + unfold LocationPanel.quiesce. by rewrite Ht.
  - rewrite Href. destruct (Nat.eqb (LocationPanel.handle tm) 0) eqn:E;
      [apply Nat.eqb_eq in E; lia|].
    unfold LocationPanel.quiesce. cbn.
    by rewrite Ht, SearchFacts.clearTimeout_own.
Qed.

Lemma unmount_cancels_search_witness :
  let w := LocationPanel.run LocationPanel.initialWorld
             [LocationPanel.Change 0 "boston"] in
  LocationPanel.one_pending w
  ∧ LocationPanel.requests (LocationPanel.quiesce w) = [(300, "boston")]
  ∧ LocationPanel.requests (LocationPanel.quiesce (unmount w)) = [].
Proof.
  intros w.
  assert (LocationPanel.one_pending w) as Hinv
    by (apply SearchFacts.run_one_pending, SearchFacts.initial_one_pending).
  exact (conj Hinv (conj eq_refl (proj2 (unmount_cancels_search w Hinv)))).
Defined.

(** ** Saved-region badges *)

(** X19. With pairwise distinct ids at most one saved-region badge is shown as
    active, and none is while the selection is temporary. *)
Theorem one_active_badge (s : RegionStore.Store)
    (x y : RegionStore.DashboardRegion) :
  NoDup (RegionStore.ids (RegionStore.regions s)) →
  x ∈ RegionStore.regions s → y ∈ RegionStore.regions s →
  isActive s x = true → isActive s y = true →
  x = y ∧ RegionStore.isTemporary s = false.
Proof.
  intros Hnd Hx Hy. unfold isActive.
  destruct (RegionStore.activeRegion s) as [a|]; [|done].
  rewrite !andb_true_iff, !String.eqb_eq, !negb_true_iff.
  intros [Hxa Ht] [Hya _]. split; [|done].
  apply list_elem_of_lookup in Hx as [i Hi].
  apply list_elem_of_lookup in Hy as [j Hj].
  assert (i = j) as ->; [|congruence].
  apply (NoDup_lookup _ i j (RegionStore.id x) Hnd); unfold RegionStore.ids;
    rewrite list_lookup_fmap.
  - by rewrite Hi.
  - rewrite Hj. cbn. congruence.
Qed.

Lemma one_active_badge_witness :
  let s := {| RegionStore.regions :=
                [RegionStore.place "a"; RegionStore.place "b"];
              RegionStore.activeId := Some "b";
              RegionStore.temporary := None |} in
  NoDup (RegionStore.ids (RegionStore.regions s))
  ∧ isActive s (RegionStore.place "b") = true
  ∧ isActive s (RegionStore.place "a") = false
  ∧ RegionStore.isTemporary s = false.
Proof.
  intros s.
  assert (NoDup (RegionStore.ids (RegionStore.regions s))) as Hnd
    by by_decision.
  assert (RegionStore.place "b" ∈ RegionStore.regions s) as Hb
    by (right; left).
  exact (conj Hnd (conj eq_refl (conj eq_refl
           (proj2 (one_active_badge s _ _ Hnd Hb Hb eq_refl eq_refl))))).
Defined.

(** ** Picking a search result *)

Section Picking.

Variable slug : string → string.
Variable stamp : string.

Lemma regionOfResult_id (location : LocationPanel.LocationSearchResult) :
  RegionStore.id (regionOfResult slug stamp location) ≠ "".
Proof. discriminate. Qed.

(** X20. Picking a search result empties the search box and makes the result a
    temporary selection; the saved list is not touched. The region built
    from the result carries the result's name, label and coordinates, its
    state as [admin], no country, and the id [search-<slug>-<time>], where
    the slug is made from the name. Saving it then puts it first in the
    saved list and makes it the active saved region, with its badge shown
    as active. *)
Theorem pick_then_save (location : LocationPanel.LocationSearchResult)
    (w : LocationPanel.World) (s : RegionStore.Store) :
  let region := regionOfResult slug stamp location in
  let picked := handleLocationSelect slug stamp location w s in
  let saved := RegionStore.persistTemporary picked.2 in
  (LocationPanel.searchQuery (LocationPanel.panel picked.1) = ""
   ∧ LocationPanel.searchResults (LocationPanel.panel picked.1) = []
   ∧ dropdownShown (LocationPanel.panel picked.1) = false)
  ∧ (RegionStore.temporary picked.2 = Some region
     ∧ RegionStore.activeRegion picked.2 = Some region
     ∧ RegionStore.isTemporary picked.2 = true
     ∧ RegionStore.regions picked.2 = RegionStore.regions s)
  ∧ (RegionStore.activeRegion saved = Some region
     ∧ head (RegionStore.regions saved) = Some region
     ∧ RegionStore.activeId saved = Some (RegionStore.id region)
     ∧ RegionStore.isTemporary saved = false
     ∧ isActive saved region = true)
  ∧ (RegionStore.id region
     = "search-" +:+ slug (LocationPanel.name location) +:+ "-" +:+ stamp
     ∧ RegionStore.name region = LocationPanel.name location
     ∧ RegionStore.label region = LocationPanel.label location
     ∧ RegionStore.lat region = LocationPanel.lat location
     ∧ RegionStore.lon region = LocationPanel.lon location
     ∧ RegionStore.admin region = LocationPanel.state location
     ∧ RegionStore.country region = None).
Proof.
  intros region picked saved.
  destruct (StoreExtras.activate_temporary_fields region s)
    as (Ha & Ht & Hr & _).
  assert (RegionStore.temporary picked.2 = Some region) as Htemp.
  { subst picked. unfold handleLocationSelect, RegionStore.activateRegion.
    cbn [snd]. by destruct (truthy (RegionStore.activeId s)). }
  assert (saved = RegionStore.activateRegion region true s) as Hsaved
    by apply StoreExtras.persist_activate_temporary.
  destruct (StoreExtras.activate_persist_fields region s
              (regionOfResult_id location)) as (Ha' & Hh' & Hi' & _ & Ht').
  rewrite <- Hsaved in Ha', Hh', Hi', Ht'.
  repeat split; try done.
  unfold isActive. by rewrite Ha', Ht', String.eqb_refl.
Qed.


End Picking.


End PanelExtras.

(** * Properties of the dashboard page *)

Module DashboardExtras.
Import Dashboard.

Section Page.

Variable toFixed : float → nat → string.

Lemma regionFromCoordinates_id (lat lon : float) :
  RegionStore.id (regionFromCoordinates toFixed lat lon) ≠ "".
Proof. discriminate. Qed.

Lemma request_resolves (d : CurrentLocation.Device) (h : CurrentLocation.Hook) :
  CurrentLocation.request d h
  = ({| CurrentLocation.coords := Some (resolved d);
        CurrentLocation.locating := false |},
     CurrentLocation.Fulfilled (Some (resolved d))).
Proof. by destruct d. Qed.

Lemma activateRegionOf_now (region : RegionStore.DashboardRegion)
    (persist : bool) (s : RegionStore.Store) :
  activateRegionOf s region persist s
  = RegionStore.activateRegion region persist s.
Proof. reflexivity. Qed.

(** X22. Use my location, whatever the device answers and whatever has happened
    to the store while the answer was awaited: the region named Current
    location at the resolved coordinates (the device's position, or New
    York City when there is no geolocation or it fails) becomes the
    temporary selection and the current selection; the queries and the map
    are keyed on those coordinates; the saved list is the one of the moment
    of the answer and [locating] is false. The active id is nulled if the
    click saw one, and is otherwise the one of the moment of the answer; so
    the selection counts as temporary ([isTemporary]) unless the click saw
    no active id and a saved region with the same id has been made active
    in the meantime. Saving the region then makes it the first saved and
    the active one. *)
Theorem use_current_location (d : CurrentLocation.Device) (pg : Page)
    (later : RegionStore.Store) :
  let pg' := handleUseCurrent toFixed d pg later in
  let region :=
    regionFromCoordinates toFixed (CurrentLocation.lat (resolved d))
      (CurrentLocation.lon (resolved d)) in
  RegionStore.temporary (store pg') = Some region
  ∧ RegionStore.activeRegion (store pg') = Some region
  ∧ RegionStore.regions (store pg') = RegionStore.regions later
  ∧ RegionStore.activeId (store pg')
    = (if truthy (RegionStore.activeId (store pg)) then None
       else RegionStore.activeId later)
  ∧ (RegionStore.isTemporary (store pg') = false
     ↔ truthy (RegionStore.activeId (store pg)) = false
       ∧ RegionStore.activeId later = Some (RegionStore.id region))
  ∧ focus pg' = Some (resolved d)
  ∧ CurrentLocation.locating (location pg') = false
  ∧ RegionStore.name region = "Current location"
  ∧ RegionStore.activeRegion (RegionStore.persistTemporary (store pg'))
    = Some region
  ∧ head (RegionStore.regions (RegionStore.persistTemporary (store pg')))
    = Some region.
Proof.
  intros pg' region. subst pg'. unfold handleUseCurrent.
  rewrite request_resolves. cbn [store location CurrentLocation.locating].
  fold region.
  pose proof (regionFromCoordinates_id (CurrentLocation.lat (resolved d))
                (CurrentLocation.lon (resolved d))) as Hne.
  fold region in Hne.
  set (s' := activateRegionOf (store pg) region false later).
  assert (RegionStore.temporary s' = Some region) as Htemp.
  { subst s'. unfold activateRegionOf.
    by destruct (truthy (RegionStore.activeId (store pg))). }
  assert (RegionStore.regions s' = RegionStore.regions later) as Hregs.
  { subst s'. unfold activateRegionOf.
    by destruct (truthy (RegionStore.activeId (store pg))). }
  assert (RegionStore.activeId s'
          = (if truthy (RegionStore.activeId (store pg)) then None
             else RegionStore.activeId later)) as Hact.
  { subst s'. unfold activateRegionOf.
    by destruct (truthy (RegionStore.activeId (store pg))). }
  assert (RegionStore.activeRegion s' = Some region) as Hsel.
  { unfold RegionStore.activeRegion. by rewrite Htemp. }
  assert (RegionStore.persistTemporary s'
          = RegionStore.activateRegion region true later) as Hsave.
  { unfold RegionStore.persistTemporary. rewrite Htemp.
    subst s'. unfold activateRegionOf, RegionStore.activateRegion.
    by destruct (truthy (RegionStore.activeId (store pg))). }
  destruct (StoreExtras.activate_persist_fields region later Hne)
    as (Ha' & Hh' & _).
  rewrite Hsave.
  repeat split; try done.
  - unfold RegionStore.isTemporary in H. rewrite Htemp, Hact in H.
    by destruct (truthy (RegionStore.activeId (store pg))).
  - unfold RegionStore.isTemporary in H. rewrite Htemp, Hact in H.
    destruct (truthy (RegionStore.activeId (store pg))); [done|].
    apply orb_false_iff in H as [_ H].
    apply negb_false_iff, strict_eq_true in H.
    destruct H as (x & H1 & H2). congruence.
  - intros [Hseen Hlater]. unfold RegionStore.isTemporary.
    rewrite Htemp, Hact, Hseen, Hlater, (truthy_Some_ne _ Hne).
    by rewrite strict_eq_refl.
  - unfold focus. cbn [store]. rewrite Hsel. cbn. by destruct (resolved d).
Qed.

(** X23. The effect of the page never changes what the queries and the map are
    keyed on, and never replaces a selection: with a selection, or without
    coordinates, it does nothing; with coordinates and no selection it
    makes the region of those coordinates the temporary selection, which is
    then the current selection and counts as temporary, and it leaves the
    saved list and the coordinates as they are. *)
Theorem locationEffect_keeps_focus (pg : Page) :
  focus (locationEffect toFixed pg) = focus pg
  ∧ (is_Some (RegionStore.activeRegion (store pg)) →
     locationEffect toFixed pg = pg)
  ∧ (CurrentLocation.coords (location pg) = None →
     locationEffect toFixed pg = pg)
  ∧ (is_Some (CurrentLocation.coords (location pg)) →
     is_Some (RegionStore.activeRegion (store (locationEffect toFixed pg))))
  ∧ (∀ c, CurrentLocation.coords (location pg) = Some c →
          RegionStore.activeRegion (store pg) = None →
          let region :=
            regionFromCoordinates toFixed (CurrentLocation.lat c)
              (CurrentLocation.lon c) in
          let s' := store (locationEffect toFixed pg) in
          RegionStore.temporary s' = Some region
          ∧ RegionStore.activeRegion s' = Some region
          ∧ RegionStore.isTemporary s' = true
          ∧ RegionStore.regions s' = RegionStore.regions (store pg)
          ∧ location (locationEffect toFixed pg) = location pg).
Proof.
  unfold locationEffect, focus.
  destruct (CurrentLocation.coords (location pg)) as [c|] eqn:Ec;
    destruct (RegionStore.activeRegion (store pg)) as [r|] eqn:Er;
    cbn [store location]; rewrite ?Er, ?Ec;
    (split; [|split; [|split; [|split]]]);
    try done; try (by intros [? [=]]); try by eexists.
  - destruct (StoreExtras.activate_temporary_fields
                (regionFromCoordinates toFixed (CurrentLocation.lat c)
                   (CurrentLocation.lon c)) (store pg)) as (-> & _).
    cbn. by destruct c.
  - intros _.
    destruct (StoreExtras.activate_temporary_fields
                (regionFromCoordinates toFixed (CurrentLocation.lat c)
                   (CurrentLocation.lon c)) (store pg)) as (-> & _).
    by eexists.
  - intros c0 [= <-] _.
    set (region := regionFromCoordinates toFixed (CurrentLocation.lat c)
                     (CurrentLocation.lon c)).
    destruct (StoreExtras.activate_temporary_fields region (store pg))
      as (Ha & Ht & Hr & _).
    repeat split; try done.
    unfold RegionStore.activateRegion.
    by destruct (truthy (RegionStore.activeId (store pg))).
Qed.

End Page.

(** With a saved region active at the click and nothing happening while the
    device is asked, the active id is nulled. With no active id at the
    click and the saved region of the same id selected in the meantime, the
    temporary selection and the active id carry the same id, and the
    selection does not count as temporary. *)
Lemma use_current_location_witness :
  let fixed : float → nat → string := λ _ _, "0" in
  let here := regionFromCoordinates fixed 40.7128%float (-74.006)%float in
  let calm :=
    {| location := CurrentLocation.initialHook;
       store := {| RegionStore.regions := [RegionStore.place "a"];
                   RegionStore.activeId := Some "a";
                   RegionStore.temporary := None |} |} in
  let click :=
    {| location := CurrentLocation.initialHook;
       store := {| RegionStore.regions := [here];
                   RegionStore.activeId := None;
                   RegionStore.temporary := Some (RegionStore.place "t") |} |} in
  let later :=
    {| RegionStore.regions := [here];
       RegionStore.activeId := Some (RegionStore.id here);
       RegionStore.temporary := None |} in
  let quiet := handleUseCurrent fixed CurrentLocation.PositionError calm
                 (store calm) in
  let raced := handleUseCurrent fixed CurrentLocation.PositionError click
                 later in
  (RegionStore.temporary (store quiet) = Some here
   ∧ RegionStore.activeId (store quiet) = None)
  ∧ (RegionStore.temporary (store raced) = Some here
     ∧ RegionStore.activeId (store raced) = Some (RegionStore.id here)
     ∧ RegionStore.isTemporary (store raced) = false).
Proof.
  intros fixed here calm click later quiet raced.
  destruct (use_current_location fixed CurrentLocation.PositionError calm
              (store calm)) as (Ht & _ & _ & Ha & _).
  destruct (use_current_location fixed CurrentLocation.PositionError click
              later) as (Ht' & _ & _ & Ha' & Hi' & _).
  exact (conj (conj Ht Ha)
           (conj Ht' (conj Ha' (proj2 Hi' (conj eq_refl eq_refl))))).
Defined.

End DashboardExtras.

(** * Further properties of the map viewport *)

Module MapExtras.
Import AqiMap.

(** Unfold one step on a world given by its fields. *)
Ltac unfold_step w :=
  destruct w as [[c cg mc mg su up] calls l];
  unfold step, rerender, commit in *;
  cbn -[ownMoveHeard] in *; rewrite ?MapFacts.own_move_unheard;
  unfold controllerRuns, mapCreated, handler, handleMapMove,
    handleRecenterMap, centerEffect, controllerEffect, centerDepsChanged,
    controllerDepsChanged, mapMounted, viewport, followMode in *;
  cbn in *; subst;
  rewrite ?Nat.eqb_refl, ?MapFacts.eqb_succ_r; cbn.

(** While following, the cell and the view asked of the map are the
    selection's. *)
Definition tracks (w : World) : Prop :=
  ∀ p, center (cells w) = Some p → userHasPanned (cells w) = false →
       mapCenter (cells w) = coordsOf p
       ∧ viewport w = Some (coordsOf p)
       ∧ shouldUpdateCenter (cells w) = true.

Ltac crunch :=
  repeat (progress
            (cbn; rewrite ?Nat.eqb_refl, ?MapFacts.eqb_succ_r, ?eqb_reflx)).

Lemma step_tracks (w : World) (e : Event) : tracks w → tracks (step w e).
Proof.
  intros Hw p. destruct e as [v| |].
  - clear Hw. unfold_step w.
    destruct v as [q|], c as [c0|], up, su; crunch; try done;
      intros [= <-] _; done.
  - destruct (listening w) eqn:Hl.
    + clear Hw. unfold_step w. destruct c, up, su; crunch; done.
    + unfold step. rewrite Hl. apply Hw.
  - clear Hw. unfold_step w.
    destruct c as [q|], up, su; crunch; try done; intros [= <-] _; done.
Qed.

Lemma mount_tracks (c : option LatLon) : tracks (mount c).
Proof.
  intros p. unfold mount, commit. rewrite MapFacts.own_move_unheard.
  destruct c as [q|];
    unfold centerEffect, controllerEffect, centerDepsChanged,
      controllerDepsChanged, controllerRuns, mapCreated, mapMounted,
      viewport, initialCells;
    crunch; [|done].
  by intros [= <-] _.
Qed.

(** X24. From the first render on and whatever happens, while the component
    is in [FOLLOWING] and a region is selected, the cell [mapCenter] and
    the view last asked of the map are the selection's coordinates. *)
Theorem following_tracks_selection
    (c : option LatLon) (es : list Event) (p : LatLon) :
  center (cells (run (mount c) es)) = Some p →
  followMode (run (mount c) es) = FOLLOWING →
  mapCenter (cells (run (mount c) es)) = coordsOf p
  ∧ viewport (run (mount c) es) = Some (coordsOf p).
Proof.
  assert (tracks (run (mount c) es)) as Ht.
  { unfold run. generalize (mount_tracks c). generalize (mount c).
    induction es as [|e es IH]; intros w Hw; [done|].
    cbn. by apply IH, step_tracks. }
  intros Hc Hf. apply MapFacts.following_iff in Hf.
  destruct (Ht p Hc Hf) as (? & ? & _). done.
Qed.

Lemma following_tracks_selection_witness :
  let es := [SelectionChange (Some boston); MoveStart;
             SelectionChange (Some chicago); Recenter;
             SelectionChange (Some denver)] in
  (center (cells (run (mount None) es)) = Some denver
   ∧ followMode (run (mount None) es) = FOLLOWING)
  ∧ viewport (run (mount None) es) = Some (coordsOf denver).
Proof.
  intros es.
  exact (conj (conj eq_refl eq_refl)
           (proj2 (following_tracks_selection None es denver
                     eq_refl eq_refl))).
Defined.

(** X25. While the component is in [PANNED] with a region selected, a new
    selection or a further [movestart] moves nothing: the cell
    [mapCenter] keeps its value, no call reaches the map, and the
    component stays in [PANNED]. Only Recenter leads out. *)
Theorem panned_moves_nothing (w : World) (a : LatLon) (e : Event) :
  followMode w = PANNED → center (cells w) = Some a →
  e ≠ Recenter → e ≠ SelectionChange None →
  mapCenter (cells (step w e)) = mapCenter (cells w)
  ∧ mapCalls (step w e) = mapCalls w
  ∧ followMode (step w e) = PANNED.
Proof.
  intros Hp Hc Hr Hn. destruct e as [[q|]| |]; try done.
  - destruct (MapFacts.step_selection_panned w a (Some q)) as (_ & ? & ? & ?);
      [done|done|by eexists|done].
  - destruct (MapFacts.step_movestart_keeps w) as [? ?].
    by rewrite MapFacts.step_movestart_panned.
Qed.

Lemma panned_moves_nothing_witness :
  let w := step (mount (Some boston)) MoveStart in
  (followMode w = PANNED ∧ center (cells w) = Some boston)
  ∧ mapCalls (step w (SelectionChange (Some chicago))) = mapCalls w
  ∧ followMode (step w (SelectionChange (Some chicago))) = PANNED.
Proof.
  intros w.
  destruct (panned_moves_nothing w boston (SelectionChange (Some chicago))
              eq_refl eq_refl ltac:(discriminate) ltac:(discriminate))
    as (_ & Hcalls & Hmode).
  exact (conj (conj eq_refl eq_refl) (conj Hcalls Hmode)).
Defined.

(** The cell [mapCenter], the selection and every call made on the map lie
    within a set [A] of coordinates. *)
Definition within (A : Tuple → Prop) (w : World) : Prop :=
  A (mapCenter (cells w))
  ∧ (∀ p, center (cells w) = Some p → A (coordsOf p))
  ∧ Forall (λ m, A (callCenter m)) (mapCalls w).

Lemma step_within (A : Tuple → Prop) (w : World) (e : Event) :
  (∀ p, e = SelectionChange (Some p) → A (coordsOf p)) →
  within A w → within A (step w e).
Proof.
  intros He Hw. destruct e as [v| |].
  - destruct Hw as (Hm & Hc & Hcalls). unfold within. unfold_step w.
    destruct v as [q|]; [pose proof (He q eq_refl) as Hq|];
      (destruct c as [c0|]; [pose proof (Hc c0 eq_refl) as Hc0|]);
      destruct up, su; crunch;
      repeat split; try done; try (intros p [= <-]; done);
      repeat (constructor; [done|]); done.
  - destruct (listening w) eqn:Hl; [|unfold step; by rewrite Hl].
    destruct Hw as (Hm & Hc & Hcalls). unfold within. unfold_step w.
    (destruct c as [c0|]; [pose proof (Hc c0 eq_refl) as Hc0|]);
      destruct up, su; crunch; repeat split; try done;
      repeat (constructor; [done|]); done.
  - destruct Hw as (Hm & Hc & Hcalls). unfold within. unfold_step w.
    (destruct c as [c0|]; [pose proof (Hc c0 eq_refl) as Hc0|]);
      destruct up, su; crunch;
      repeat split; try done; try (intros p [= <-]; done);
      repeat (constructor; [done|]); done.
Qed.

Lemma run_within (A : Tuple → Prop) (es : list Event) (w : World) :
  (∀ p, SelectionChange (Some p) ∈ es → A (coordsOf p)) →
  within A w → within A (run w es).
Proof.
  revert w. induction es as [|e es IH]; intros w Hes Hw; [done|].
  cbn. apply IH.
  - intros p Hp. apply Hes. by right.
  - apply step_within; [|done]. intros p ->. apply Hes. left.
Qed.

(** X27. The map is never sent anywhere but to the built-in default (New York
    City) or to the coordinates of a selection the page has passed: every
    call made on the map, from the first render on, has such a centre. *)
Theorem map_calls_target_selections
    (c : option LatLon) (es : list Event) (m : MapCall) :
  m ∈ mapCalls (run (mount c) es) →
  callCenter m = (40.7128%float, (-74.0060)%float)
  ∨ ∃ p, (c = Some p ∨ SelectionChange (Some p) ∈ es)
         ∧ callCenter m = coordsOf p.
Proof.
  set (A := λ t : Tuple,
         t = (40.7128%float, (-74.0060)%float)
         ∨ ∃ p, (c = Some p ∨ SelectionChange (Some p) ∈ es)
                ∧ t = coordsOf p).
  assert (within A (mount c)) as Hmount.
  { assert (∀ q, c = Some q → A (coordsOf q)) as Hsel
      by (intros q ->; right; eauto).
    assert (A (40.7128%float, (-74.0060)%float)) as Hnyc by (by left).
    unfold within, mount, commit. rewrite MapFacts.own_move_unheard.
    unfold centerEffect, controllerEffect, centerDepsChanged,
      controllerDepsChanged, controllerRuns, mapCreated, mapMounted.
    destruct c as [q|]; crunch.
    - pose proof (Hsel q eq_refl) as Hq.
      repeat split; try done; try (by intros p [= <-]);
        repeat (constructor; [done|]); done.
    - repeat split; try done. }
  assert (within A (run (mount c) es)) as (_ & _ & Hcalls).
  { apply run_within; [|done]. intros p Hp. right. eauto. }
  intros Hm. by apply (proj1 (Forall_forall _ _) Hcalls m Hm).
Qed.

Lemma map_calls_target_selections_witness :
  let es := [SelectionChange (Some chicago); MoveStart; Recenter] in
  SetView (coordsOf chicago) ∈ mapCalls (run (mount (Some boston)) es)
  ∧ (coordsOf chicago = (40.7128%float, (-74.0060)%float)
     ∨ ∃ p, (Some boston = Some p ∨ SelectionChange (Some p) ∈ es)
            ∧ coordsOf chicago = coordsOf p).
Proof.
  intros es.
  assert (SetView (coordsOf chicago)
            ∈ mapCalls (run (mount (Some boston)) es)) as Hin by left.
  exact (conj Hin
           (map_calls_target_selections (Some boston) es
              (SetView (coordsOf chicago)) Hin)).
Defined.

End MapExtras.
